(** * reddit-comment-sentiment: collector, enrichment, checkpoint, consolidation

    A shallow embedding of [get_usernames_get_info.py], of
    [helpers/mergin_all_files_deduplicated.py] and of the counting,
    splitting and JSON scripts of [helpers/].

    - Python [str] values are lists of Unicode code points ([N]).
    - Python [set] is a [gset], a [dict] with string keys a [gmap].
    - Python floats are binary64 primitive floats.
    - The module-level mutable state ([seen_users], the checkpoint file,
      the parquet files written) is threaded explicitly as a [world].
    - The remote API, the fastText model and the sentiment pipeline are
      external: they are parameters of the functions that call them.
    - The requests to Reddit and the stream are where the collector is
      taken to fail. The models and the writes of files are taken to
      return; the jobs of a pool are taken one after the other, in the
      order of their completion, not interleaved. *)

From Stdlib Require Import ZArith NArith QArith Floats List Lia.
From stdpp Require Import gmap sorting list strings pretty.

Close Scope Q_scope.
Open Scope nat_scope.

(** ** Python strings *)

Module PyStr.

Definition char := N.
Definition str := list N.

(** A source literal, as its list of code points. *)
Definition lit (s : String.string) : str :=
  map Ascii.N_of_ascii (String.list_ascii_of_string s).
Arguments lit s%_string.

(** [str.isspace] on one character, which is also the class [\s] of [re]
    on [str] patterns: CPython's [_PyUnicode_IsWhitespace] table. *)
Definition isspace (c : char) : bool :=
  ((9 <=? c) && (c <=? 13) || (28 <=? c) && (c <=? 32)
   || (c =? 133) || (c =? 160) || (c =? 5760)
   || (8192 <=? c) && (c <=? 8202)
   || (c =? 8232) || (c =? 8233) || (c =? 8239) || (c =? 8287)
   || (c =? 12288))%N.

Definition nonspace (c : char) : bool := negb (isspace c).

Fixpoint takewhile (p : char -> bool) (s : str) : str :=
  match s with
  | [] => []
  | c :: r => if p c then c :: takewhile p r else []
  end.

Fixpoint dropwhile (p : char -> bool) (s : str) : str :=
  match s with
  | [] => []
  | c :: r => if p c then dropwhile p r else s
  end.

(** [s.startswith(p)] *)
Fixpoint startswith (p s : str) : bool :=
  match p, s with
  | [], _ => true
  | _ :: _, [] => false
  | a :: p', b :: s' => (a =? b)%N && startswith p' s'
  end.

(** [s.replace(old, new)]: every non-overlapping occurrence of [old],
    scanning from the left. [skip] counts the characters of an occurrence
    that are still to be passed over. With [old] empty Python puts [new]
    before every character and at the end. *)
Fixpoint replace_go (old new : str) (skip : nat) (s : str) : str :=
  match s with
  | [] => []
  | c :: r =>
      match skip with
      | S k => replace_go old new k r
      | O =>
          if startswith old s
          then new ++ replace_go old new (length old - 1) r
          else c :: replace_go old new 0 r
      end
  end.

Definition replace (old new s : str) : str :=
  match old with
  | [] => flat_map (fun c => new ++ [c]) s ++ new
  | _ :: _ => replace_go old new 0 s
  end.

(** [s.strip()] *)
Definition lstrip (s : str) : str := dropwhile isspace s.
Definition rstrip (s : str) : str := rev (dropwhile isspace (rev s)).
Definition strip (s : str) : str := rstrip (lstrip s).

(** [s[:n]] *)
Definition slice_to (n : nat) (s : str) : str := firstn n s.

(** [sorted] on strings compares code point by code point. *)
Fixpoint str_leb (a b : str) : bool :=
  match a, b with
  | [], _ => true
  | _ :: _, [] => false
  | x :: a', y :: b' =>
      if (x <? y)%N then true
      else if (y <? x)%N then false
      else str_leb a' b'
  end.

Definition str_le (a b : str) : Prop := str_leb a b = true.

#[global] Instance str_le_dec : RelDecision str_le :=
  fun a b => bool_eq_dec (str_leb a b) true.

Definition py_sorted (l : list str) : list str := merge_sort str_le l.

End PyStr.
Import PyStr.

(** ** The URL pattern [https?://\S+] and [clean_text] *)

Module Clean.

(** A literal piece of the pattern: what is left of [s] after it. *)
Definition re_lit (p s : str) : option str :=
  if startswith p s then Some (skipn (length p) s) else None.

(** [\S+], greedy, at the end of the pattern. *)
Definition re_nonspace_plus (s : str) : option str :=
  match s with
  | [] => None
  | c :: r => if isspace c then None else Some (dropwhile nonspace r)
  end.

(** [://\S+] *)
Definition re_tail (s : str) : option str :=
  match re_lit (lit "://") s with
  | Some r => re_nonspace_plus r
  | None => None
  end.

(** [_URL_RE] matched at the head of [s]: the rest of [s] after the match.
    The optional [s] is tried first, then the pattern without it. *)
Definition url_match (s : str) : option str :=
  match re_lit (lit "http") s with
  | None => None
  | Some r =>
      match r with
      | c :: r' =>
          if (c =? 115)%N
          then match re_tail r' with
               | Some rest => Some rest
               | None => re_tail r
               end
          else re_tail r
      | [] => re_tail r
      end
  end.

(** [_URL_RE.sub("", s)]: matches are looked for from the left, and the
    search goes on after the end of each match. *)
Fixpoint url_sub_go (skip : nat) (s : str) : str :=
  match s with
  | [] => []
  | c :: r =>
      match skip with
      | S k => url_sub_go k r
      | O =>
          match url_match s with
          | Some rest => url_sub_go (length r - length rest) r
          | None => c :: url_sub_go 0 r
          end
      end
  end.

Definition url_sub (s : str) : str := url_sub_go 0 s.

Definition clean_text (text : str) : str :=
  strip (replace (lit (String.String (Ascii.ascii_of_nat 10) String.EmptyString))
                 (lit " ") (url_sub text)).

End Clean.
Import Clean.

(** ** Notions used to state the properties of [clean_text] *)

(** [s] begins with a match of the pattern: a scheme and one more
    character that is not white space. *)
Definition url_head (s : str) : Prop :=
  ∃ c t, isspace c = false ∧
    (s = lit "http://" ++ c :: t ∨ s = lit "https://" ++ c :: t).

(** The first word of [s]: its characters up to the first white space. *)
Definition word (s : str) : str := takewhile nonspace s.

(** No match of the pattern begins anywhere in [s]. *)
Fixpoint no_url (s : str) : Prop :=
  url_match s = None ∧
  match s with
  | [] => True
  | _ :: r => no_url r
  end.

(** [replace("\n", " ")] on one character. *)
Definition nl_to_space (c : char) : char := if (10 =? c)%N then 32%N else c.

(** ** Configuration *)

Definition MAX_COMMENTS : nat := 2000.
Definition FT_THRESHOLD : float := 0x1.6666666666666p-1%float. (* 0.7 *)
Definition SLEEP_SECONDS : Z := 30.

(** ** Enrichment: language detection and sentiment *)

(** What [ft_model.predict(text, k=1)] gave back: a pair of labels and
    scores, or anything else. *)
Inductive ft_result :=
  | FtPair (labels : list str) (scores : list float)
  | FtOther.

(** A comment as the API returns it; [c_body] is [None] when the body is
    missing. [c_subreddit] is what [str(c.subreddit)] gives. *)
Record comment := {
  c_body : option str;
  c_id : str;
  c_subreddit : str;
  c_created_utc : Q;
  c_score : Z;
}.

(** One entry of the list [process_user_comments] returns. [None] in
    [sentiment] is Python's [None]. *)
Record comment_row := {
  username : str;
  comment_id : str;
  subreddit : str;
  created_utc : Z;
  score : Z;
  body_clean : str;
  language : str;
  sentiment : option (gmap str float);
}.

(** [int(x)] on a number: truncation towards zero. *)
Definition py_int (q : Q) : Z := Z.quot (Qnum q) (Z.pos (Qden q)).

(** [x or ""] *)
Definition or_empty (x : option str) : str :=
  match x with
  | Some s => s
  | None => []
  end.

Section Enrichment.

(** [str.lower] (the Unicode case tables are not part of the program). *)
Variable lower : str -> str.
(** [ft_model.predict(text, k=1)] *)
Variable ft_predict : str -> ft_result.
(** [sent_pipe(text, return_all_scores=True)]: a list whose first element
    is the list of the label and score entries. *)
Variable sent_pipe : str -> list (list (str * float)).

Definition detect_lang_with (text : str) (threshold : float) : str :=
  let cleaned := lower (clean_text text) in
  match cleaned with
  | [] => lit "unknown"
  | _ :: _ =>
      match ft_predict cleaned with
      | FtOther => lit "unknown"
      | FtPair labels scores =>
          match labels, scores with
          | l0 :: _, s0 :: _ =>
              let iso := replace (lit "__label__") [] l0 in
              if PrimFloat.leb threshold s0 then iso else lit "unknown"
          | _, _ => lit "unknown"
          end
      end
  end.

Definition detect_lang (text : str) : str := detect_lang_with text FT_THRESHOLD.

(** The loop of [classify_sentiment] over the entries. *)
Fixpoint classify_loop (out : gmap str float) (scores : list (str * float))
  : gmap str float :=
  match scores with
  | [] => out
  | entry :: rest => classify_loop (<[lower (fst entry) := snd entry]> out) rest
  end.

Definition classify_sentiment (text : str) : gmap str float :=
  match sent_pipe (slice_to 512 text) with
  | [] => ∅
  | scores :: _ => classify_loop ∅ scores
  end.

(** The body of the loop of [process_user_comments]: the row of one
    comment. *)
Definition comment_row_of (uname : str) (c : comment) : comment_row :=
  let body := or_empty (c_body c) in
  let clean_body := clean_text body in
  let lang := detect_lang clean_body in
  let sent :=
    if bool_decide (lang = lit "en") && negb (bool_decide (clean_body = []))
    then Some (classify_sentiment clean_body)
    else None in
  {| username := uname;
     comment_id := c_id c;
     subreddit := c_subreddit c;
     created_utc := py_int (c_created_utc c);
     score := c_score c;
     body_clean := clean_body;
     language := lang;
     sentiment := sent |}.

Fixpoint process_loop (uname : str) (out : list comment_row)
    (raw_comments : list comment) : list comment_row :=
  match raw_comments with
  | [] => out
  | c :: rest => process_loop uname (out ++ [comment_row_of uname c]) rest
  end.

Definition process_user_comments (uname : str) (raw_comments : list comment)
  : list comment_row :=
  process_loop uname [] raw_comments.

End Enrichment.

(** ASCII lower-casing and fixed classifiers, to run the definitions. *)
Module Sample.

Definition ascii_lower (s : str) : str :=
  map (fun c => if (65 <=? c)%N && (c <=? 90)%N then (c + 32)%N else c) s.

Definition ft_en (_ : str) : ft_result :=
  FtPair [lit "__label__en"] [0x1.ccccccccccccdp-1%float].

Definition three_scores (_ : str) : list (list (str * float)) :=
  [[(lit "NEGATIVE", 0x1p-3%float); (lit "neutral", 0x1p-3%float);
    (lit "Positive", 0x1.8p-1%float)]].

Definition comment1 : comment :=
  {| c_body := Some (lit "I love this http://x.y/z"); c_id := lit "c1";
     c_subreddit := lit "all"; c_created_utc := (17 # 2)%Q; c_score := 3 |}.

Definition comment2 : comment :=
  {| c_body := None; c_id := lit "c2";
     c_subreddit := lit "all"; c_created_utc := (9 # 1)%Q; c_score := 0 |}.

End Sample.

(** ** Exceptions and results *)

Inductive exn :=
  | ResponseException            (* prawcore.exceptions.ResponseException *)
  | OtherException (what : str)  (* any other subclass of Exception *)
  | IndexError
  | StopIteration
  | ValueError
  | KeyError (key : list str)
  | SystemExit (code : Z).

(** Whether [except Exception] catches it: [SystemExit] is not a subclass
    of [Exception]. *)
Definition is_exception (x : exn) : bool :=
  match x with
  | SystemExit _ => false
  | _ => true
  end.

Inductive outcome (A : Type) :=
  | Returns (a : A)
  | Raises (e : exn).
Arguments Returns {A} a.
Arguments Raises {A} e.

(** [l[i]] with Python's negative indices. *)
Definition py_getitem {A} (l : list A) (i : Z) : outcome A :=
  let n := Z.of_nat (length l) in
  let j := if (i <? 0)%Z then (n + i)%Z else i in
  if (j <? 0)%Z then Raises IndexError
  else match l !! Z.to_nat j with
       | Some x => Returns x
       | None => Raises IndexError
       end.

(** [range(a, b)] *)
Definition py_range (a b : Z) : list Z :=
  map (fun k => (a + Z.of_nat k)%Z) (seq 0 (Z.to_nat (b - a))).

(** [enumerate(l, start)] *)
Fixpoint py_enumerate {A} (start : Z) (l : list A) : list (Z * A) :=
  match l with
  | [] => []
  | x :: r => (start, x) :: py_enumerate (start + 1)%Z r
  end.

(** [itertools.cycle] over a list: the elements still to come in this
    round, and all of them for the next rounds. *)
Record cycle_state (A : Type) := {
  cy_rest : list A;
  cy_all : list A;
}.
Arguments cy_rest {A}.
Arguments cy_all {A}.

Definition py_cycle {A} (l : list A) : cycle_state A :=
  {| cy_rest := l; cy_all := l |}.

(** [next(c)]: [None] is [StopIteration], which only an empty cycle raises. *)
Definition cycle_next {A} (c : cycle_state A) : option (A * cycle_state A) :=
  match cy_rest c with
  | x :: r => Some (x, {| cy_rest := r; cy_all := cy_all c |})
  | [] =>
      match cy_all c with
      | x :: r => Some (x, {| cy_rest := r; cy_all := cy_all c |})
      | [] => None
      end
  end.

(** [list(zip(c, l))] with [c] a cycle: [zip] asks [c] first and stops when
    either side is exhausted. *)
Fixpoint zip_cycle {A B} (c : cycle_state A) (l : list B) : list (A * B) :=
  match cycle_next c with
  | None => []
  | Some (x, c') =>
      match l with
      | [] => []
      | y :: l' => (x, y) :: zip_cycle c' l'
      end
  end.

(** ** The remote API and the process state *)

(** A handle of [reddit_clients], named by its place in the credentials
    file. *)
Definition client := nat.

Record profile := {
  p_created_utc : Q;
  p_link_karma : Z;
  p_comment_karma : Z;
  p_is_mod : option bool;   (* [None]: the attribute is missing *)
}.

(** What the API answers for one user through one client: the listing
    behind [u.comments.new(...)] and the attributes that [u.created_utc],
    [u.link_karma], ... load on first access. Either request may raise. *)
Record redditor := {
  comments_new : outcome (list comment);
  about : outcome profile;
}.

Record user_row := {
  u_username : str;
  u_created_utc : Z;
  u_link_karma : Z;
  u_comment_karma : Z;
  u_is_mod : bool;
  u_trophy_count : option Z;   (* only [run_single] writes this key *)
  u_fetched_at : Z;
  u_client_idx : option Z;     (* only [run_single] writes this key *)
}.

Inductive table :=
  | UserRows (rows : list user_row)
  | CommentRows (rows : list comment_row).

(** What is outside the program: the credentials, the API, the clock, the
    models, and the order in which the pool finishes its jobs (a
    rearrangement of the jobs submitted). [BATCH_SIZE] is 50 in the source;
    it is a field here so that small batches can be run. *)
Record env := {
  BATCH_SIZE : nat;
  reddit_clients : list client;
  api : client -> str -> redditor;
  now : Z;
  lower : str -> str;
  ft_predict : str -> ft_result;
  sent_pipe : str -> list (list (str * float));
  completion_order : list (Z * str) -> list (Z * str);
}.

(** The module-level state: [seen_users], the checkpoint file
    [seen_usernames.json] (the JSON list it holds, [None] when the file does
    not exist), [reddit_cycle], and the log of the parquet writes so far,
    each with the prefix and the time stamp of its file name. *)
Record world := {
  seen_users : gset str;
  seen_file : option (list str);
  reddit_cycle : cycle_state (Z * client);
  parquet_files : list (str * Z * table);
}.

Definition set_seen (f : gset str -> gset str) (w : world) : world :=
  {| seen_users := f (seen_users w); seen_file := seen_file w;
     reddit_cycle := reddit_cycle w; parquet_files := parquet_files w |}.

Definition set_cycle (c : cycle_state (Z * client)) (w : world) : world :=
  {| seen_users := seen_users w; seen_file := seen_file w;
     reddit_cycle := c; parquet_files := parquet_files w |}.

(** ** Seen-users checkpoint *)

(** The module-level load: [set(json.load(f))], or the empty set when the
    file does not exist. *)
Definition load_seen (file : option (list str)) : gset str :=
  match file with
  | Some names => list_to_set names
  | None => ∅
  end.

(** What [json.dump(sorted(seen_users), f)] leaves in the file. *)
Definition checkpoint_of (seen : gset str) : list str := py_sorted (elements seen).

Definition save_seen (w : world) : world :=
  {| seen_users := seen_users w;
     seen_file := Some (checkpoint_of (seen_users w));
     reddit_cycle := reddit_cycle w; parquet_files := parquet_files w |}.

(** The state of the process once the module is loaded. *)
Definition startup (e : env) (file : option (list str)) : world :=
  {| seen_users := load_seen file; seen_file := file;
     reddit_cycle := py_cycle (py_enumerate 1 (reddit_clients e));
     parquet_files := [] |}.

(** [save_parquet(data, prefix)] adds a write to the log:
    [pq.write_table] is taken to succeed. The time stamp has the precision
    of a second, so two writes under one prefix within a second go to one
    file name, of which the data directory keeps the later one only; the
    log holds both. *)
Definition save_parquet (e : env) (data : table) (prefix : str) (w : world) : world :=
  {| seen_users := seen_users w; seen_file := seen_file w;
     reddit_cycle := reddit_cycle w;
     parquet_files := parquet_files w ++ [(prefix, now e, data)] |}.

Definition process_comments (e : env) : str -> list comment -> list comment_row :=
  process_user_comments (lower e) (ft_predict e) (sent_pipe e).

(** [bool(getattr(u, "is_mod", False))] *)
Definition is_mod_of (p : profile) : bool :=
  match p_is_mod p with
  | Some b => b
  | None => false
  end.

(** ** One job *)

(** [fetch_user_job(job)]. The job is taken to fail at its requests to
    Reddit (and at the choice of its credential): [process_user_comments]
    and [save_seen], after them, are taken to return. *)
Definition fetch_user_job (e : env) (job : Z * str) (w : world)
  : outcome (option (user_row * list comment_row)) * world :=
  let '(idx, uname) := job in
  match py_getitem (reddit_clients e) (idx - 1) with
  | Raises x => (Raises x, w)
  | Returns cl =>
      let u := api e cl uname in
      match comments_new u with
      | Raises x =>
          if is_exception x
          then (Returns None, w)             (* except Exception: return None *)
          else (Raises x, w)
      | Returns listing =>
          let raw_comments := firstn MAX_COMMENTS listing in
          match about u with
          | Raises x => (Raises x, w)        (* outside the try *)
          | Returns p =>
              let row :=
                {| u_username := uname;
                   u_created_utc := py_int (p_created_utc p);
                   u_link_karma := p_link_karma p;
                   u_comment_karma := p_comment_karma p;
                   u_is_mod := is_mod_of p;
                   u_trophy_count := None;
                   u_fetched_at := now e;
                   u_client_idx := None |} in
              let comment_rows := process_comments e uname raw_comments in
              let w1 := set_seen (fun s => {[uname]} ∪ s) w in
              let w2 := save_seen w1 in
              (Returns (Some (row, comment_rows)), w2)
          end
      end
  end.

(** ** The comment stream *)

(** What the loop over [stream.comments(pause_after=-1)] sees next: the
    [None] marker, a comment with its author's name ([None] for a comment
    without author), or an exception raised by the stream. A finite list
    of events stands for what has arrived so far; the code waits on the
    stream when it is used up. *)
Inductive feed_event :=
  | FeedNone
  | FeedComment (author : option str)
  | FeedRaise (x : exn).

Inductive run_status :=
  | Waiting               (* blocked on the stream *)
  | Crashed (x : exn).    (* an exception left the function *)

(** ** Single-user mode *)

Fixpoint single_loop (e : env) (single_cycle : cycle_state (Z * client))
    (w : world) (feed : list feed_event) : run_status * world :=
  match feed with
  | [] => (Waiting, w)
  | FeedRaise x :: _ => (Crashed x, w)
  | FeedNone :: rest => single_loop e single_cycle w rest
  | FeedComment None :: rest => single_loop e single_cycle w rest
  | FeedComment (Some uname) :: rest =>
      if bool_decide (uname ∈ seen_users w)
      then single_loop e single_cycle w rest
      else
        match cycle_next single_cycle with
        | None => (Crashed StopIteration, w)
        | Some ((client_idx, cl), cyc') =>
            (* marks seen & persist *)
            let w1 := save_seen (set_seen (fun s => {[uname]} ∪ s) w) in
            match about (api e cl uname) with
            | Raises x => (Crashed x, w1)
            | Returns p =>
                let row :=
                  {| u_username := uname;
                     u_created_utc := py_int (p_created_utc p);
                     u_link_karma := p_link_karma p;
                     u_comment_karma := p_comment_karma p;
                     u_is_mod := is_mod_of p;
                     u_trophy_count := Some 0%Z;
                     u_fetched_at := now e;
                     u_client_idx := Some client_idx |} in
                let w2 := save_parquet e (UserRows [row]) (lit "users") w1 in
                match comments_new (api e cl uname) with
                | Raises x => (Crashed x, w2)
                | Returns listing =>
                    let raw := firstn MAX_COMMENTS listing in
                    let comment_rows := process_comments e uname raw in
                    let w3 := save_parquet e (CommentRows comment_rows) uname w2 in
                    single_loop e cyc' w3 rest
                end
            end
        end
  end.

Definition run_single (e : env) (w : world) (feed : list feed_event)
  : run_status * world :=
  match py_getitem (reddit_clients e) 0 with
  | Raises x => (Crashed x, w)
  | Returns _ =>
      single_loop e (py_cycle (py_enumerate 1 (reddit_clients e))) w feed
  end.

(** ** Batch mode *)

Inductive collected :=
  | Released (fresh : list str) (c : cycle_state (Z * client)) (rest : list feed_event)
  | Blocked (fresh : list str) (c : cycle_state (Z * client))
  | Stopped (x : exn) (c : cycle_state (Z * client)).

(** The test of [while len(fresh) < BATCH_SIZE] and, when it holds, the
    [next(reddit_cycle)] that opens the next stream. *)
Definition while_fresh (e : env) (fresh : list str) (c : cycle_state (Z * client))
    (rest : list feed_event)
    (body : cycle_state (Z * client) -> collected) : collected :=
  if length fresh <? BATCH_SIZE e
  then match cycle_next c with
       | None => Stopped StopIteration c
       | Some (_, c') => body c'
       end
  else Released fresh c rest.

(** The [for] loop over one stream; when it ends ([break], or the caught
    [ResponseException]) the [while] test is taken again. *)
Fixpoint stream_loop (e : env) (seen : gset str) (fresh : list str)
    (c : cycle_state (Z * client)) (feed : list feed_event) : collected :=
  match feed with
  | [] => Blocked fresh c
  | FeedNone :: rest =>
      while_fresh e fresh c rest (fun c' => stream_loop e seen fresh c' rest)
  | FeedRaise ResponseException :: rest =>
      while_fresh e fresh c rest (fun c' => stream_loop e seen fresh c' rest)
  | FeedRaise x :: _ => Stopped x c
  | FeedComment None :: rest => stream_loop e seen fresh c rest
  | FeedComment (Some name) :: rest =>
      if bool_decide (name ∉ seen) && bool_decide (name ∉ seen)
      then
        let fresh' := fresh ++ [name] in
        if BATCH_SIZE e <=? length fresh'
        then while_fresh e fresh' c rest (fun c' => stream_loop e seen fresh' c' rest)
        else stream_loop e seen fresh' c rest
      else stream_loop e seen fresh c rest
  end.

Definition collect_fresh (e : env) (w : world) (feed : list feed_event) : collected :=
  while_fresh e [] (reddit_cycle w) feed
    (fun c' => stream_loop e (seen_users w) [] c' feed).

(** [jobs = list(zip(cycle(range(1, len(reddit_clients) + 1)), fresh))] *)
Definition build_jobs (n_clients : nat) (fresh : list str) : list (Z * str) :=
  zip_cycle (py_cycle (py_range 1 (Z.of_nat n_clients + 1))) fresh.

(** The pool runs every submitted job; each one is taken as a whole, in the
    order in which the jobs complete. (The threads of the source share
    [seen_users] and the checkpoint file without a lock; the interleaving
    of two jobs that write the file at the same time is not modelled.) *)
Fixpoint run_jobs (e : env) (jobs : list (Z * str)) (w : world)
  : list ((Z * str) * outcome (option (user_row * list comment_row))) * world :=
  match jobs with
  | [] => ([], w)
  | job :: rest =>
      let '(res, w1) := fetch_user_job e job w in
      let '(results, w2) := run_jobs e rest w1 in
      ((job, res) :: results, w2)
  end.

(** The loop over [as_completed(futures)]: [fut.result()] raises again what
    the job raised. *)
Fixpoint gather (results : list ((Z * str) * outcome (option (user_row * list comment_row))))
    (all_users : list user_row) (all_comments : list comment_row)
  : outcome (list user_row * list comment_row) :=
  match results with
  | [] => Returns (all_users, all_comments)
  | (_, Raises x) :: _ => Raises x
  | (_, Returns None) :: rest => gather rest all_users all_comments
  | (_, Returns (Some (row, comment_rows))) :: rest =>
      gather rest (all_users ++ [row]) (all_comments ++ comment_rows)
  end.

Inductive batch_result :=
  | BatchSaved (fresh : list str) (rest : list feed_event)
  | BatchWaiting
  | BatchCrashed (x : exn).

Definition run_batch (e : env) (w : world) (feed : list feed_event)
  : batch_result * world :=
  match collect_fresh e w feed with
  | Blocked _ c => (BatchWaiting, set_cycle c w)
  | Stopped x c => (BatchCrashed x, set_cycle c w)
  | Released fresh c rest =>
      let w0 := set_cycle c w in
      let jobs := build_jobs (length (reddit_clients e)) fresh in
      match reddit_clients e with
      | [] => (BatchCrashed ValueError, w0)   (* max_workers = 0 *)
      | _ :: _ =>
          let '(results, w1) := run_jobs e (completion_order e jobs) w0 in
          match gather results [] [] with
          | Raises x => (BatchCrashed x, w1)
          | Returns (all_users, all_comments) =>
              let w2 := save_parquet e (UserRows all_users) (lit "users") w1 in
              let w3 := save_parquet e (CommentRows all_comments)
                          (lit ("batch_" +:+ pretty (length all_comments))) w2 in
              (BatchSaved fresh rest, w3)
          end
      end
  end.

(** ** Parquet tables as data frames, and the merge script *)

#[global] Instance spec_float_eq_dec : EqDecision spec_float.
Proof. solve_decision. Defined.

(** A cell of a data frame. A sentiment mapping is stored as a struct of
    floats. *)
Inductive cell :=
  | CNull
  | CInt (z : Z)
  | CStr (s : str)
  | CBool (b : bool)
  | CFloat (f : spec_float)
  | CStruct (fields : list (str * spec_float)).

#[global] Instance cell_eq_dec : EqDecision cell.
Proof. solve_decision. Defined.

(** A frame: its column names, and its rows. A row has no entry for a
    column that [pd.concat] had to fill in. *)
Record frame := {
  columns : list str;
  rows : list (gmap str cell);
}.

Definition comment_columns : list str :=
  [lit "username"; lit "comment_id"; lit "subreddit"; lit "created_utc";
   lit "score"; lit "body_clean"; lit "language"; lit "sentiment"].

(** The keys and values of the dict that [process_user_comments] appends. *)
Definition comment_cells (r : comment_row) : gmap str cell :=
  list_to_map
    [(lit "username", CStr (username r));
     (lit "comment_id", CStr (comment_id r));
     (lit "subreddit", CStr (subreddit r));
     (lit "created_utc", CInt (created_utc r));
     (lit "score", CInt (score r));
     (lit "body_clean", CStr (body_clean r));
     (lit "language", CStr (language r));
     (lit "sentiment",
       match sentiment r with
       | None => CNull
       | Some m => CStruct (map_to_list (Prim2SF <$> m))
       end)].

Definition user_cells (r : user_row) : list (str * cell) :=
  [(lit "username", CStr (u_username r));
   (lit "created_utc", CInt (u_created_utc r));
   (lit "link_karma", CInt (u_link_karma r));
   (lit "comment_karma", CInt (u_comment_karma r));
   (lit "is_mod", CBool (u_is_mod r))]
  ++ match u_trophy_count r with
     | Some z => [(lit "trophy_count", CInt z)]
     | None => []
     end
  ++ [(lit "fetched_at", CInt (u_fetched_at r))]
  ++ match u_client_idx r with
     | Some z => [(lit "client_idx", CInt z)]
     | None => []
     end.

(** [pa.Table.from_pylist(data)], read back by [pd.read_parquet]: the
    columns are the keys of the first row. *)
Definition table_frame (t : table) : frame :=
  match t with
  | CommentRows [] => {| columns := []; rows := [] |}
  | CommentRows rs => {| columns := comment_columns; rows := map comment_cells rs |}
  | UserRows [] => {| columns := []; rows := [] |}
  | UserRows (r :: rs) =>
      {| columns := map fst (user_cells r);
         rows := map (fun x => list_to_map (user_cells x)) (r :: rs) |}
  end.

(** [s.endswith(p)] *)
Definition endswith (p s : str) : bool := startswith (rev p) (rev s).

(** The columns of [pd.concat(dfs)]: those of every frame, each once, in
    the order of their first appearance. *)
Fixpoint union_columns (acc : list str) (dfs : list frame) : list str :=
  match dfs with
  | [] => acc
  | df :: rest =>
      union_columns (acc ++ filter (fun c => c ∉ acc) (remove_dups (columns df))) rest
  end.

(** [pd.concat(dfs, ignore_index=True)]: the rows of the frames, one
    frame after the other. The cells stay as they are stored: the
    conversions between number types that pandas makes when it joins
    columns are not modelled, nor is the index of the frame. *)
Definition pd_concat (dfs : list frame) : frame :=
  {| columns := union_columns [] dfs; rows := flat_map rows dfs |}.

(** [pd.isna] on a cell: a stored null and a NaN are missing values. *)
Definition is_na (v : cell) : bool :=
  match v with
  | CNull => true
  | CFloat S754_nan => true
  | _ => false
  end.

(** What [drop_duplicates] compares in column [c] of a row: a missing
    value, whether stored as a null or filled in by [pd.concat], is one
    and the same key; any other cell is compared as it is stored. *)
Definition na_key (r : gmap str cell) (c : str) : option cell :=
  match r !! c with
  | Some v => if is_na v then None else Some v
  | None => None
  end.

(** The key of a row for [drop_duplicates(subset=...)]. *)
Definition row_key (subset : list str) (r : gmap str cell) : list (option cell) :=
  map (na_key r) subset.

(** [keep="first"]: a row stays when no earlier row has its key. *)
Fixpoint dedup_go (subset : list str) (keys : list (list (option cell)))
    (rs : list (gmap str cell)) : list (gmap str cell) :=
  match rs with
  | [] => []
  | r :: rest =>
      if bool_decide (row_key subset r ∈ keys)
      then dedup_go subset keys rest
      else r :: dedup_go subset (row_key subset r :: keys) rest
  end.

(** [df.drop_duplicates(subset=subset)]: a [KeyError] when a column of
    [subset] is not a column of the frame. *)
Definition drop_duplicates (subset : list str) (df : frame) : outcome frame :=
  match filter (fun c => c ∉ columns df) subset with
  | [] => Returns {| columns := columns df; rows := dedup_go subset [] (rows df) |}
  | missing => Raises (KeyError missing)
  end.

(** [mergin_all_files_deduplicated.py] over the listing of the data
    directory (file names and contents): the frame that it writes to
    [all_comments_merged.parquet], or the exception that ends it. *)
Definition merge_with (subset : list str) (listing : list (str * frame)) : outcome frame :=
  let files :=
    filter (fun f => endswith (lit ".parquet") (fst f)
                     && negb (bool_decide (fst f = lit "all_comments_merged.parquet")))
           listing in
  match files with
  | [] => Raises (SystemExit 1)
  | _ :: _ => drop_duplicates subset (pd_concat (map snd files))
  end.

Definition merge_all_files : list (str * frame) -> outcome frame :=
  merge_with [lit "id"].

(** The [id] of a row is text, as the ids of Reddit are, or is missing.
    On such a column [drop_duplicates] compares the strings as they are;
    no conversion between number types takes part. *)
Definition id_is_text (r : gmap str cell) : bool :=
  match r !! lit "id" with
  | Some (CStr _) | Some CNull | None => true
  | Some _ => false
  end.

(** The names that the collection released, if it came to release. *)
Definition released_names (r : collected) : option (list str) :=
  match r with
  | Released fresh _ _ => Some fresh
  | _ => None
  end.

(** ** A small world to run the collector in *)

Module Scenario.

Definition alice : str := lit "alice".
Definition bob : str := lit "bob".
Definition carol : str := lit "carol".

Definition some_profile : profile :=
  {| p_created_utc := (1500000000 # 1)%Q; p_link_karma := 10; p_comment_karma := 20;
     p_is_mod := None |}.

(** [carol]: the listing of her comments cannot be fetched. [alice]: her
    comments are listed, but her profile attributes cannot be loaded.
    Everybody else: both requests succeed. *)
Definition sample_api (_ : client) (name : str) : redditor :=
  if bool_decide (name = carol)
  then {| comments_new := Raises (OtherException (lit "404"));
          about := Raises (OtherException (lit "404")) |}
  else if bool_decide (name = alice)
  then {| comments_new := Returns [Sample.comment1];
          about := Raises (OtherException (lit "no created_utc")) |}
  else {| comments_new := Returns [Sample.comment2];
          about := Returns some_profile |}.

Definition sample_env (batch_size : nat) : env :=
  {| BATCH_SIZE := batch_size;
     reddit_clients := [0; 1];
     api := sample_api;
     now := 1700000000;
     lower := Sample.ascii_lower;
     ft_predict := Sample.ft_en;
     sent_pipe := Sample.three_scores;
     completion_order := fun jobs => jobs |}.

(** The process just started, with no checkpoint file. *)
Definition fresh_world (batch_size : nat) : world :=
  startup (sample_env batch_size) None.

Definition by_ (name : str) : feed_event := FeedComment (Some name).

End Scenario.

(** ** The other scripts of [helpers/] *)

(** *** [counting_data.py] *)

Definition USERS_PARQUET_PREFIX : str := lit "users_".
Definition COMMENTS_PARQUET_PREFIX : str := lit "comments_".

(** The loop over the files of one directory: each file with its name and
    the [num_rows] of its metadata. *)
Fixpoint count_files (files : list (str * nat)) (user_rows comment_rows : nat)
  : nat * nat :=
  match files with
  | [] => (user_rows, comment_rows)
  | (fn, num_rows) :: rest =>
      if negb (endswith (lit ".parquet") fn)
      then count_files rest user_rows comment_rows
      else if startswith USERS_PARQUET_PREFIX fn
      then count_files rest (user_rows + num_rows) comment_rows
      else if startswith COMMENTS_PARQUET_PREFIX fn
      then count_files rest user_rows (comment_rows + num_rows)
      else count_files rest user_rows comment_rows
  end.

(** The loop over the directories. [listdir] gives the files of a path,
    [None] when [os.path.isdir] says it is no directory. *)
Fixpoint count_dirs (listdir : str -> option (list (str * nat)))
    (data_dirs : list str) (user_rows comment_rows : nat) : nat * nat :=
  match data_dirs with
  | [] => (user_rows, comment_rows)
  | data_dir :: rest =>
      match listdir data_dir with
      | None => count_dirs listdir rest user_rows comment_rows
      | Some files =>
          let '(u, c) := count_files files user_rows comment_rows in
          count_dirs listdir rest u c
      end
  end.

Definition count_rows_by_prefix (listdir : str -> option (list (str * nat)))
    (data_dirs : list str) : nat * nat :=
  count_dirs listdir data_dirs 0 0.

(** *** [split_by_language.py] *)

(** [row["language"] == "en"]: false for a missing or null cell. *)
Definition language_is_en (r : gmap str cell) : Prop :=
  r !! lit "language" = Some (CStr (lit "en")).

#[global] Instance language_is_en_dec r : Decision (language_is_en r).
Proof. unfold language_is_en. apply _. Defined.

(** [main] of the script on the frame read from [INPUT_FILE]: the frames
    written to [EN_FILE] and to [NON_EN_FILE]. *)
Definition split_by_language (df : frame) : outcome (frame * frame) :=
  if bool_decide (lit "language" ∈ columns df)
  then Returns ({| columns := columns df; rows := filter language_is_en (rows df) |},
                {| columns := columns df;
                   rows := filter (fun r => ¬ language_is_en r) (rows df) |})
  else Raises ValueError.

(** *** [parquet_to_json.py] *)

(** [range(start, stop, step)] *)
Definition py_range_step (start stop step : Z) : outcome (list Z) :=
  if (step =? 0)%Z then Raises ValueError
  else
    let n :=
      if (0 <? step)%Z
      then (if (start <? stop)%Z then (stop - start - 1) / step + 1 else 0)%Z
      else (if (stop <? start)%Z then (start - stop - 1) / (- step) + 1 else 0)%Z in
    Returns (map (fun k => (start + Z.of_nat k * step)%Z) (seq 0 (Z.to_nat n))).

(** [l[a:b]], with Python's treatment of negative and too large bounds. *)
Definition py_slice {A} (l : list A) (a b : Z) : list A :=
  let n := Z.of_nat (length l) in
  let norm i := if (i <? 0)%Z then Z.max 0 (i + n) else Z.min i n in
  skipn (Z.to_nat (norm a)) (firstn (Z.to_nat (norm b)) l).

Section ParquetToJson.

(** The rows of the frame as [to_dict(orient="records")] gives them, and
    [orjson.dumps] on one of them. *)
Context {record : Type} (dumps : record -> list N).

Definition serialize_chunk (records : list record) : list N :=
  concat (map (fun rec => dumps rec ++ [10%N]) records).

(** What [parquet_to_json] writes to the output file. The chunks are
    written in the order in which they were submitted. *)
Definition parquet_to_json (df : list record) (chunk_size workers : Z)
  : outcome (list N) :=
  let total := Z.of_nat (length df) in
  if (workers <=? 0)%Z then Raises ValueError   (* ProcessPoolExecutor *)
  else
    match py_range_step 0 total chunk_size with
    | Raises x => Raises x
    | Returns starts =>
        Returns (concat (map (fun start =>
                   serialize_chunk (py_slice df start (start + chunk_size))) starts))
    end.

End ParquetToJson.

(** ** Notions used to state the properties of the collector *)

(** The authors of the comments of a stream that are not in [seen], in
    the order of the stream, each as often as they write. *)
Fixpoint unseen_authors (seen : gset str) (feed : list feed_event) : list str :=
  match feed with
  | [] => []
  | FeedComment (Some name) :: rest =>
      if bool_decide (name ∉ seen)
      then name :: unseen_authors seen rest
      else unseen_authors seen rest
  | _ :: rest => unseen_authors seen rest
  end.

(** The usernames of the user rows of a list of parquet files. *)
Definition written_users (files : list (str * Z * table)) : list str :=
  flat_map (fun f => match f.2 with
                     | UserRows rows => map u_username rows
                     | CommentRows _ => []
                     end) files.

(** The files of a listing that the merge script reads. *)
Definition merge_inputs (listing : list (str * frame)) : list (str * frame) :=
  filter (fun f => endswith (lit ".parquet") f.1
                   && negb (bool_decide (f.1 = lit "all_comments_merged.parquet")))
         listing.

(** The user rows of a list of parquet files, in the order of writing. *)
Definition written_rows (files : list (str * Z * table)) : list user_row :=
  flat_map (fun f => match f.2 with
                     | UserRows rows => rows
                     | CommentRows _ => []
                     end) files.

(** The user rows, and the lists of comment rows, of the jobs that
    returned some. *)
Definition returned_users
    (results : list ((Z * str) * outcome (option (user_row * list comment_row))))
  : list user_row :=
  omap (fun r => match r.2 with
                 | Returns (Some (row, _)) => Some row
                 | _ => None
                 end) results.

Definition returned_comments
    (results : list ((Z * str) * outcome (option (user_row * list comment_row))))
  : list comment_row :=
  concat (omap (fun r => match r.2 with
                         | Returns (Some (_, rows)) => Some rows
                         | _ => None
                         end) results).

(** ** More samples *)

Module MoreSamples.

(** A classifier that gives two entries whose labels agree after
    lower-casing. *)
Definition twice_positive (_ : str) : list (list (str * float)) :=
  [[(lit "POSITIVE", 0x1p-2%float); (lit "negative", 0x1p-3%float);
    (lit "positive", 0x1.8p-1%float)]].

End MoreSamples.

(** ** Sample frames *)

Module Frames.

Definition row (id body : str) : gmap str cell :=
  list_to_map [(lit "id", CStr id); (lit "body", CStr body)].

Definition frame_a : frame :=
  {| columns := [lit "id"; lit "body"];
     rows := [row (lit "c1") (lit "x"); row (lit "c2") (lit "y");
              row (lit "c1") (lit "z")] |}.

Definition frame_b : frame :=
  {| columns := [lit "id"; lit "language"];
     rows := [list_to_map [(lit "id", CStr (lit "c2")); (lit "language", CStr (lit "en"))];
              list_to_map [(lit "id", CStr (lit "c3")); (lit "language", CStr (lit "fr"))];
              list_to_map [(lit "id", CStr (lit "c4")); (lit "language", CNull)]] |}.

Definition listing_ab : list (str * frame) :=
  [(lit "a.parquet", frame_a); (lit "notes.txt", frame_b);
   (lit "b.parquet", frame_b)].

(** A file without an [id] column, and one whose first row has a null
    [id]. *)
Definition frame_p : frame :=
  {| columns := [lit "body"];
     rows := [list_to_map [(lit "body", CStr (lit "p"))]] |}.

Definition frame_q : frame :=
  {| columns := [lit "id"; lit "body"];
     rows := [list_to_map [(lit "id", CNull); (lit "body", CStr (lit "q"))];
              row (lit "x1") (lit "r")] |}.

Definition listing_pq : list (str * frame) :=
  [(lit "p.parquet", frame_p); (lit "q.parquet", frame_q)].

End Frames.

(** * Proofs *)

(** Writes the literals of the goal as lists of code points. *)
Ltac lits :=
  repeat match goal with
         | |- context [lit ?x] =>
             let v := eval vm_compute in (lit x) in change (lit x) with v
         end.

(** ** Strings *)

Lemma take_drop_while p s : takewhile p s ++ dropwhile p s = s.
Proof.
  induction s as [|c r IH]; simpl; [done|].
  destruct (p c); simpl; [by rewrite IH | done].
Qed.

Lemma dropwhile_head p s c r : dropwhile p s = c :: r → p c = false.
Proof.
  induction s as [|d s IH]; simpl; [done|].
  destruct (p d) eqn:E; [done|]. intros [= <- _]. done.
Qed.

Lemma dropwhile_fixed p c r : p c = false → dropwhile p (c :: r) = c :: r.
Proof. intros H. simpl. by rewrite H. Qed.

Lemma dropwhile_idem p s : dropwhile p (dropwhile p s) = dropwhile p s.
Proof.
  destruct (dropwhile p s) as [|c r] eqn:E; [done|].
  apply dropwhile_fixed. eapply dropwhile_head, E.
Qed.

Lemma dropwhile_suffix p s : ∃ pre, s = pre ++ dropwhile p s.
Proof. exists (takewhile p s). by rewrite take_drop_while. Qed.

Lemma Forall_dropwhile (P : N → Prop) p s : Forall P s → Forall P (dropwhile p s).
Proof.
  intros H. destruct (dropwhile_suffix p s) as [pre E].
  rewrite E in H. by apply Forall_app in H as [_ ?].
Qed.

Lemma takewhile_all p s : forallb p s = true → takewhile p s = s.
Proof.
  induction s as [|c r IH]; simpl; [done|].
  intros [-> ?]%andb_true_iff. by rewrite IH.
Qed.

Lemma takewhile_app_all p a b :
  forallb p a = true → takewhile p (a ++ b) = a ++ takewhile p b.
Proof.
  induction a as [|c r IH]; simpl; [done|].
  intros [-> ?]%andb_true_iff. by rewrite IH.
Qed.

Lemma takewhile_forallb p s : forallb p (takewhile p s) = true.
Proof.
  induction s as [|c r IH]; simpl; [done|].
  destruct (p c) eqn:E; simpl; [by rewrite E | done].
Qed.

Lemma takewhile_prefix_app p a b : takewhile p a `prefix_of` takewhile p (a ++ b).
Proof.
  induction a as [|c r IH]; simpl; [apply prefix_nil|].
  destruct (p c); [by apply prefix_cons | apply prefix_nil].
Qed.

Lemma startswith_app p s : startswith p (p ++ s) = true.
Proof. induction p as [|a p IH]; simpl; [done|]. by rewrite N.eqb_refl. Qed.

Lemma startswith_inv p s : startswith p s = true → s = p ++ skipn (length p) s.
Proof.
  revert s. induction p as [|a p IH]; intros [|b s]; simpl; try done.
  intros [->%N.eqb_eq ?]%andb_true_iff. f_equal. by apply IH.
Qed.

(** Replacing one character by another is a [map]. *)
Lemma replace_char a b s :
  replace [a] [b] s = map (fun c => if (a =? c)%N then b else c) s.
Proof.
  unfold replace. induction s as [|c r IH]; [done|].
  cbn [replace_go startswith length Nat.sub map].
  destruct (a =? c)%N; simpl.
  - rewrite <- IH. by destruct r.
  - by rewrite IH.
Qed.

(** ** The URL pattern *)

Lemma re_lit_Some p s r : re_lit p s = Some r → s = p ++ r.
Proof.
  unfold re_lit. destruct (startswith p s) eqn:E; [|done].
  intros [= <-]. by apply startswith_inv.
Qed.

Lemma re_tail_Some s rest :
  re_tail s = Some rest →
  ∃ c t, isspace c = false ∧ s = lit "://" ++ c :: t ∧ rest = dropwhile nonspace t.
Proof.
  unfold re_tail. destruct (re_lit (lit "://") s) as [r|] eqn:E; [|done].
  apply re_lit_Some in E. destruct r as [|c t]; simpl; [done|].
  destruct (isspace c) eqn:Ec; [done|]. intros [= <-]. by exists c, t.
Qed.

Lemma re_tail_s r : re_tail (115%N :: r) = None.
Proof. reflexivity. Qed.

Lemma url_match_Some s rest :
  url_match s = Some rest →
  ∃ c t, isspace c = false ∧
    (s = lit "http://" ++ c :: t ∨ s = lit "https://" ++ c :: t) ∧
    rest = dropwhile nonspace t.
Proof.
  unfold url_match. destruct (re_lit (lit "http") s) as [r|] eqn:E; [|done].
  apply re_lit_Some in E. subst s.
  destruct r as [|c r'].
  - done.
  - destruct (N.eqb_spec c 115) as [->|Hc].
    + rewrite re_tail_s. destruct (re_tail r') as [x|] eqn:E; [|done].
      intros [= <-]. apply re_tail_Some in E as (c & t & Hc & -> & ->).
      exists c, t. split; [done|]. split; [by right | done].
    + intros (c' & t & Hc' & E & ->)%re_tail_Some.
      exists c', t. split; [done|]. split; [|done]. left. by rewrite E.
Qed.

Lemma url_match_http c t :
  isspace c = false → url_match (lit "http://" ++ c :: t) = Some (dropwhile nonspace t).
Proof.
  intros Hc. unfold url_match, re_tail, re_lit. lits. simpl. by rewrite Hc.
Qed.

Lemma url_match_https c t :
  isspace c = false → url_match (lit "https://" ++ c :: t) = Some (dropwhile nonspace t).
Proof.
  intros Hc. unfold url_match, re_tail, re_lit. lits. simpl. by rewrite Hc.
Qed.

Lemma url_match_head s : url_match s ≠ None ↔ url_head s.
Proof.
  split.
  - destruct (url_match s) as [rest|] eqn:E; [|done]. intros _.
    apply url_match_Some in E as (c & t & ? & ? & _). by exists c, t.
  - intros (c & t & Hc & [-> | ->]).
    + by rewrite url_match_http.
    + by rewrite url_match_https.
Qed.

Lemma url_head_nonspace c r : url_head (c :: r) → isspace c = false.
Proof. intros (d & t & _ & [E | E]); injection E as -> _; reflexivity. Qed.

Lemma word_scheme_http c t :
  isspace c = false → word (lit "http://" ++ c :: t) = lit "http://" ++ c :: word t.
Proof.
  intros Hc. unfold word. rewrite takewhile_app_all by reflexivity.
  simpl. unfold nonspace at 1. by rewrite Hc.
Qed.

Lemma word_scheme_https c t :
  isspace c = false → word (lit "https://" ++ c :: t) = lit "https://" ++ c :: word t.
Proof.
  intros Hc. unfold word. rewrite takewhile_app_all by reflexivity.
  simpl. unfold nonspace at 1. by rewrite Hc.
Qed.

(** Whether a match begins at the head of a string is decided by its
    first word. *)
Lemma url_head_word s1 s2 :
  url_head s1 → word s1 `prefix_of` word s2 → url_head s2.
Proof.
  intros (c & t & Hc & Hs) [k Hk].
  assert (∃ sch, s1 = sch ++ c :: t ∧ word s1 = sch ++ c :: word t ∧
                 (sch = lit "http://" ∨ sch = lit "https://")) as (sch & -> & Hw & Hsch).
  { destruct Hs as [-> | ->]; eexists; split; try done; split;
      [by apply word_scheme_http | by left | by apply word_scheme_https | by right]. }
  rewrite Hw in Hk.
  exists c, ((word t ++ k) ++ dropwhile nonspace s2). split; [done|].
  assert (s2 = sch ++ c :: (word t ++ k) ++ dropwhile nonspace s2) as E.
  { rewrite <- (take_drop_while nonspace s2) at 1. fold (word s2). rewrite Hk.
    by rewrite <- !app_assoc. }
  destruct Hsch as [-> | ->]; [by left | by right].
Qed.

Lemma url_match_suffix c r rest :
  url_match (c :: r) = Some rest → ∃ pre, r = pre ++ rest.
Proof.
  intros (d & t & _ & Hs & ->)%url_match_Some.
  assert (∃ p, r = p ++ t) as [p ->].
  { destruct Hs as [Hs | Hs]; injection Hs as _ ->;
      [exists (tail (lit "http://") ++ [d]) | exists (tail (lit "https://") ++ [d])];
      reflexivity. }
  exists (p ++ takewhile nonspace t). by rewrite <- app_assoc, take_drop_while.
Qed.

Lemma url_sub_go_skip k s : url_sub_go k s = url_sub_go 0 (drop k s).
Proof.
  revert k. induction s as [|c r IH]; intros [|k]; try done.
  simpl. apply IH.
Qed.

(** [url_sub] as the search for matches reads: drop a match at the head
    and go on after it, or keep the first character. *)
Lemma url_sub_eq s :
  url_sub s =
  match url_match s with
  | Some rest => url_sub rest
  | None => match s with [] => [] | c :: r => c :: url_sub r end
  end.
Proof.
  unfold url_sub. destruct s as [|c r]; [done|].
  cbn [url_sub_go]. destruct (url_match (c :: r)) as [rest|] eqn:E; [|done].
  rewrite url_sub_go_skip. f_equal.
  destruct (url_match_suffix _ _ _ E) as [pre ->].
  rewrite length_app. replace (length pre + length rest - length rest) with (length pre) by lia.
  apply drop_app_length.
Qed.

Lemma url_match_shorter s rest : url_match s = Some rest → length rest < length s.
Proof.
  destruct s as [|c r]; [done|]. intros [pre ->]%url_match_suffix.
  rewrite length_cons, length_app. lia.
Qed.

Lemma url_match_space c r : isspace c = true → url_match (c :: r) = None.
Proof.
  intros Hc. destruct (url_match (c :: r)) eqn:E; [|done].
  assert (url_head (c :: r)) as H by (apply url_match_head; congruence).
  apply url_head_nonspace in H. congruence.
Qed.

(** After a match the text goes on with white space or ends, so nothing
    of what follows joins the word before the match. *)
Lemma word_url_sub_after t : word (url_sub (dropwhile nonspace t)) = [].
Proof.
  destruct (dropwhile nonspace t) as [|c r] eqn:E; [done|].
  apply dropwhile_head in E. apply negb_false_iff in E.
  rewrite url_sub_eq, url_match_space by done.
  unfold word, nonspace. simpl. by rewrite E.
Qed.

Lemma word_url_sub s : word (url_sub s) `prefix_of` word s.
Proof.
  induction s as [|c r IH]; [done|].
  rewrite url_sub_eq. destruct (url_match (c :: r)) as [rest|] eqn:E.
  - apply url_match_Some in E as (d & t & _ & _ & ->).
    rewrite word_url_sub_after. apply prefix_nil.
  - unfold word in *. simpl. destruct (nonspace c); [by apply prefix_cons | done].
Qed.

Lemma url_sub_no_url s : no_url (url_sub s).
Proof.
  remember (length s) as n eqn:Hn. revert s Hn.
  induction n as [n IH] using lt_wf_ind. intros s ->.
  rewrite url_sub_eq. destruct (url_match s) as [rest|] eqn:E.
  - eapply IH; [|done]. by apply url_match_shorter.
  - destruct s as [|c r]; [done|]. split.
    + destruct (url_match (c :: url_sub r)) eqn:E'; [|done]. exfalso.
      assert (url_head (c :: r)) as H.
      { apply (url_head_word (c :: url_sub r)); [apply url_match_head; congruence|].
        unfold word. simpl. destruct (nonspace c); [|done].
        apply prefix_cons, word_url_sub. }
      apply url_match_head in H. done.
    + eapply IH; [|done]. simpl. lia.
Qed.

Lemma no_url_fixed s : no_url s → url_sub s = s.
Proof.
  induction s as [|c r IH]; [done|]. intros [H1 H2].
  rewrite url_sub_eq, H1. f_equal. by apply IH.
Qed.

Lemma no_url_app a b : no_url (a ++ b) → no_url a.
Proof.
  induction a as [|c r IH].
  - intros _. done.
  - intros [H1 H2]. split; [|by apply IH].
    destruct (url_match (c :: r)) eqn:E; [|done]. exfalso.
    assert (url_head ((c :: r) ++ b)) as H.
    { apply (url_head_word (c :: r)); [apply url_match_head; congruence|].
      apply takewhile_prefix_app. }
    apply url_match_head in H. done.
Qed.

Lemma no_url_drop a b : no_url (a ++ b) → no_url b.
Proof.
  induction a as [|c r IH]; [done|]. intros [_ H]. by apply IH.
Qed.

Lemma no_url_map f s :
  (∀ c, isspace c = false → f c = c) →
  (∀ c, isspace c = true → isspace (f c) = true) →
  no_url s → no_url (map f s).
Proof.
  intros Hf1 Hf2. induction s as [|c r IH]; [done|].
  intros [H1 H2]. split; [|by apply IH].
  destruct (url_match (map f (c :: r))) eqn:E; [|done]. exfalso.
  assert (url_head (c :: r)) as H.
  { apply (url_head_word (map f (c :: r))); [apply url_match_head; congruence|].
    assert (∀ t, word (map f t) = word t) as ->; [|done].
    intros t. unfold word, nonspace. induction t as [|d t IHt]; [done|].
    simpl. destruct (isspace d) eqn:Ed.
    - by rewrite Hf2.
    - rewrite Hf1, Ed by done. simpl. by rewrite IHt. }
  apply url_match_head in H. done.
Qed.

(** ** [strip] and [clean_text] *)

Lemma clean_text_eq t : clean_text t = strip (map nl_to_space (url_sub t)).
Proof. unfold clean_text. f_equal. apply (replace_char 10 32). Qed.

Lemma rstrip_app s : ∃ ws, s = rstrip s ++ ws.
Proof.
  unfold rstrip. exists (rev (takewhile isspace (rev s))).
  by rewrite <- rev_app_distr, take_drop_while, rev_involutive.
Qed.

Lemma strip_parts s : ∃ l r, s = l ++ strip s ++ r.
Proof.
  unfold strip, lstrip. destruct (rstrip_app (dropwhile isspace s)) as [ws E].
  exists (takewhile isspace s), ws. by rewrite <- E, take_drop_while.
Qed.

Lemma no_url_strip s : no_url s → no_url (strip s).
Proof.
  destruct (strip_parts s) as (l & r & E). rewrite E at 1.
  intros H. by apply no_url_drop, no_url_app in H.
Qed.

Lemma Forall_strip (P : N → Prop) s : Forall P s → Forall P (strip s).
Proof.
  destruct (strip_parts s) as (l & r & E). rewrite E at 1.
  intros H. by apply Forall_app in H as [_ [? _]%Forall_app].
Qed.

Lemma rstrip_idem s : rstrip (rstrip s) = rstrip s.
Proof. unfold rstrip. by rewrite rev_involutive, dropwhile_idem. Qed.

Lemma lstrip_rstrip_lstrip s : lstrip (rstrip (lstrip s)) = rstrip (lstrip s).
Proof.
  destruct (rstrip_app (lstrip s)) as [ws E].
  destruct (rstrip (lstrip s)) as [|c r] eqn:Er; [done|].
  unfold lstrip in *. apply dropwhile_fixed.
  eapply dropwhile_head. rewrite E. reflexivity.
Qed.

Lemma strip_idem s : strip (strip s) = strip s.
Proof.
  change (strip (strip s)) with (rstrip (lstrip (rstrip (lstrip s)))).
  rewrite lstrip_rstrip_lstrip. apply rstrip_idem.
Qed.

Lemma nl_to_space_no_nl s : Forall (fun c => c ≠ 10%N) (map nl_to_space s).
Proof.
  apply Forall_map, Forall_forall. intros c _. unfold nl_to_space.
  destruct (N.eqb_spec 10 c); [discriminate | congruence].
Qed.

Lemma nl_to_space_fixed s : Forall (fun c => c ≠ 10%N) s → map nl_to_space s = s.
Proof.
  induction 1 as [|c r Hc _ IH]; [done|]. simpl. rewrite IH. f_equal.
  unfold nl_to_space. destruct (N.eqb_spec 10 c); congruence.
Qed.

Lemma clean_text_no_url t : no_url (clean_text t).
Proof.
  rewrite clean_text_eq. apply no_url_strip, no_url_map, url_sub_no_url.
  - intros c Hc. unfold nl_to_space. destruct (N.eqb_spec 10 c) as [<-|]; done.
  - intros c Hc. unfold nl_to_space. destruct (N.eqb_spec 10 c); done.
Qed.

(** C10. [clean_text] is idempotent: cleaning a cleaned text again (URL
    removal, newlines to spaces, strip) leaves it unchanged, for every
    input string. *)
Theorem clean_text_idempotent (t : str) : clean_text (clean_text t) = clean_text t.
Proof.
  rewrite (clean_text_eq (clean_text t)).
  rewrite (no_url_fixed _ (clean_text_no_url t)).
  rewrite nl_to_space_fixed.
  - rewrite clean_text_eq. apply strip_idem.
  - rewrite clean_text_eq. apply Forall_strip, nl_to_space_no_nl.
Qed.

(** ** Enrichment *)

Section EnrichmentFacts.

Context (lower : str → str) (ft_predict : str → ft_result)
        (sent_pipe : str → list (list (str * float))).

Local Abbreviation row_of := (comment_row_of lower ft_predict sent_pipe).
Local Abbreviation process := (process_user_comments lower ft_predict sent_pipe).
Local Abbreviation classify := (classify_sentiment lower sent_pipe).
Local Abbreviation loop := (classify_loop lower).

Lemma process_loop_map uname out raw :
  process_loop lower ft_predict sent_pipe uname out raw = out ++ map (row_of uname) raw.
Proof.
  revert out. induction raw as [|c rest IH]; intros out; simpl.
  - by rewrite app_nil_r.
  - by rewrite IH, <- app_assoc.
Qed.

Lemma process_user_comments_map uname raw : process uname raw = map (row_of uname) raw.
Proof. apply process_loop_map. Qed.

(** C9. [process_user_comments] returns one row per input comment, in the
    order of the input, and every row carries the given username: the
    output is as long as the input, the row at each position is the row of
    the comment at that position (same comment id, subreddit, score, and
    the cleaned body of that comment), and its username is the one
    given. *)
Theorem process_user_comments_rows (uname : str) (raw : list comment) :
  length (process uname raw) = length raw ∧
  (∀ i, process uname raw !! i = row_of uname <$> raw !! i) ∧
  (∀ i c, raw !! i = Some c →
     ∃ r, process uname raw !! i = Some r ∧
          comment_id r = c_id c ∧ subreddit r = c_subreddit c ∧
          score r = c_score c ∧ created_utc r = py_int (c_created_utc c) ∧
          body_clean r = clean_text (or_empty (c_body c))) ∧
  Forall (fun r => username r = uname) (process uname raw).
Proof.
  rewrite process_user_comments_map. repeat split.
  - apply length_map.
  - intros i. apply list_lookup_fmap.
  - intros i c Hc. exists (row_of uname c).
    rewrite list_lookup_fmap, Hc. done.
  - apply Forall_map, Forall_forall. done.
Qed.

(** The keys of the mapping that the loop of [classify_sentiment] builds. *)
Lemma classify_loop_keys scores out k :
  is_Some (loop out scores !! k) ↔
  is_Some (out !! k) ∨ k ∈ map (fun e => lower (fst e)) scores.
Proof.
  revert out. induction scores as [|[l p] rest IH]; intros out; simpl.
  - rewrite elem_of_nil. tauto.
  - rewrite IH, elem_of_cons, lookup_insert_is_Some.
    destruct (decide (lower l = k)) as [->|]; intuition congruence.
Qed.

(** Every entry of the classifier's answer is in the mapping, under its
    lower-cased label, with a score the classifier gave for that label. *)
Lemma classify_loop_keep scores out k :
  k ∉ map (fun e => lower (fst e)) scores → loop out scores !! k = out !! k.
Proof.
  revert out. induction scores as [|[a b] sc IH]; intros out Hn; simpl; [done|].
  simpl in Hn. apply not_elem_of_cons in Hn as [? ?].
  rewrite IH by done. by apply lookup_insert_ne.
Qed.

Lemma classify_loop_value scores out k :
  k ∈ map (fun e => lower (fst e)) scores →
  ∃ l' p', (l', p') ∈ scores ∧ lower l' = k ∧ loop out scores !! k = Some p'.
Proof.
  revert out. induction scores as [|[a b] rest IH]; intros out Hk; simpl in *.
  - by apply elem_of_nil in Hk.
  - destruct (decide (k ∈ map (fun e => lower (fst e)) rest)) as [Hk'|Hk'].
    + destruct (IH (<[lower a:=b]> out) Hk') as (l1 & p1 & ? & ? & ?).
      exists l1, p1. split; [by apply elem_of_cons; right | done].
    + apply elem_of_cons in Hk as [->|]; [|done].
      exists a, b. split; [by apply elem_of_cons; left|]. split; [done|].
      rewrite classify_loop_keep by done. apply lookup_insert_eq.
Qed.

Lemma classify_loop_entry scores out l p :
  (l, p) ∈ scores →
  ∃ l' p', (l', p') ∈ scores ∧ lower l' = lower l ∧
           loop out scores !! lower l = Some p'.
Proof.
  intros Hin. apply classify_loop_value.
  apply list_elem_of_fmap. by exists (l, p).
Qed.

Lemma classify_sentiment_keys text scores rest k :
  sent_pipe (slice_to 512 text) = scores :: rest →
  is_Some (classify text !! k) ↔ k ∈ map (fun e => lower (fst e)) scores.
Proof.
  intros E. unfold classify_sentiment. rewrite E, classify_loop_keys.
  rewrite lookup_empty. split; [intros [[? [=]]|]; done | by right].
Qed.

(** C6. Language gate. For every row of [process_user_comments]:
    [sentiment] is not [None] exactly when the detected language is ["en"]
    and the cleaned text is not empty; an empty cleaned text gives language
    ["unknown"] and no sentiment; and a sentiment that is present is the
    mapping built from the whole list of scores that the classifier gave
    for the text cut to 512 characters: its keys are exactly the
    lower-cased labels of that list, each bound to a score that the
    classifier gave for that label (the full distribution, not the best
    label only). [str.lower] is taken to map the empty string to
    itself. *)
Theorem language_gate (lower_nil : lower [] = [])
    (uname : str) (raw : list comment) :
  Forall (fun r =>
    (sentiment r ≠ None ↔ language r = lit "en" ∧ body_clean r ≠ []) ∧
    (body_clean r = [] → language r = lit "unknown" ∧ sentiment r = None) ∧
    (∀ m, sentiment r = Some m →
       m = classify (body_clean r) ∧
       ∀ scores rest, sent_pipe (slice_to 512 (body_clean r)) = scores :: rest →
         (∀ k, is_Some (m !! k) ↔ k ∈ map (fun e => lower (fst e)) scores) ∧
         (∀ l p, (l, p) ∈ scores →
            ∃ l' p', (l', p') ∈ scores ∧ lower l' = lower l ∧
                     m !! lower l = Some p')))
    (process uname raw).
Proof.
  rewrite process_user_comments_map. apply Forall_map, Forall_forall.
  intros c _. unfold comment_row_of. cbn [sentiment language body_clean].
  set (clean_body := clean_text (or_empty (c_body c))).
  split; [|split].
  - destruct (bool_decide_reflect (detect_lang lower ft_predict clean_body = lit "en"));
      destruct (bool_decide_reflect (clean_body = [])); simpl;
      split; try tauto; try done; intros [? ?]; done.
  - intros E. rewrite E. split.
    + unfold detect_lang, detect_lang_with.
      change (clean_text []) with (@nil N). by rewrite lower_nil.
    + by rewrite andb_false_r.
  - intros m Hm.
    destruct (bool_decide _ && _); [|done]. injection Hm as <-.
    split; [done|]. intros scores rest E. split.
    + intros k. by eapply classify_sentiment_keys.
    + intros l p Hin. unfold classify_sentiment. rewrite E.
      apply (classify_loop_entry scores ∅ l p Hin).
Qed.

(** When the labels of the classifier's answer are distinct after
    lower-casing, each is bound to its own score. *)
Lemma classify_loop_score scores out l p :
  NoDup (map (fun e => lower (fst e)) scores) →
  (l, p) ∈ scores → loop out scores !! lower l = Some p.
Proof.
  revert out. induction scores as [|[a b] sc IH]; intros out Hnd Hin.
  - by apply elem_of_nil in Hin.
  - simpl in *. apply NoDup_cons in Hnd as [Hna Hnd].
    apply elem_of_cons in Hin as [[= -> ->]|Hin].
    + rewrite classify_loop_keep by done. apply lookup_insert_eq.
    + by apply IH.
Qed.

Lemma classify_sentiment_score text scores rest l p :
  sent_pipe (slice_to 512 text) = scores :: rest →
  NoDup (map (fun e => lower (fst e)) scores) →
  (l, p) ∈ scores → classify text !! lower l = Some p.
Proof.
  intros E Hnd Hin. unfold classify_sentiment. rewrite E.
  by apply classify_loop_score.
Qed.

End EnrichmentFacts.

(** The witness of C6: ASCII lower-casing maps the empty string to itself;
    one English comment and one without body. *)
Lemma language_gate_witness :
  Sample.ascii_lower [] = [] ∧
  Forall (fun r => sentiment r ≠ None ↔ language r = lit "en" ∧ body_clean r ≠ [])
    (process_user_comments Sample.ascii_lower Sample.ft_en Sample.three_scores
       (lit "bob") [Sample.comment1; Sample.comment2]).
Proof.
  split; [reflexivity|].
  eapply Forall_impl.
  - apply (language_gate Sample.ascii_lower Sample.ft_en Sample.three_scores).
    reflexivity.
  - intros r H. apply H.
Defined.

(** ** Checkpoint *)

Lemma str_le_total : Total str_le.
Proof.
  intros a. unfold str_le. induction a as [|x a IH]; intros [|y b]; simpl; auto.
  destruct (N.ltb_spec x y), (N.ltb_spec y x); auto; lia.
Qed.

Lemma str_le_trans : Transitive str_le.
Proof.
  intros a. unfold str_le. induction a as [|x a IH]; intros [|y b] [|z c]; simpl; try done.
  destruct (N.ltb_spec x y), (N.ltb_spec y x), (N.ltb_spec y z), (N.ltb_spec z y),
    (N.ltb_spec x z), (N.ltb_spec z x); try done; try lia.
  apply IH.
Qed.

Lemma str_le_antisym : AntiSymm (=) str_le.
Proof.
  intros a. unfold str_le. induction a as [|x a IH]; intros [|y b]; simpl; try done.
  destruct (N.ltb_spec x y), (N.ltb_spec y x); try done; try lia.
  intros H1 H2. f_equal; [lia | by apply IH].
Qed.

Lemma checkpoint_of_perm (seen : gset str) : checkpoint_of seen ≡ₚ elements seen.
Proof. apply merge_sort_Permutation. Qed.

Lemma elem_of_checkpoint_of (seen : gset str) x : x ∈ checkpoint_of seen ↔ x ∈ seen.
Proof. by rewrite checkpoint_of_perm, elem_of_elements. Qed.

Lemma load_checkpoint (seen : gset str) : load_seen (Some (checkpoint_of seen)) = seen.
Proof.
  unfold load_seen. apply set_eq. intros x.
  by rewrite elem_of_list_to_set, elem_of_checkpoint_of.
Qed.

(** C8. Checkpoint round trip. Loading a missing checkpoint file gives the
    empty set. Marking a name as processed (adding it to [seen_users] and
    calling [save_seen]) rewrites the file with the whole set: the list in
    the file is sorted, has no name twice, and holds exactly the names of
    the set. For every set of names, loading the file that the save wrote
    gives back that set. *)
Theorem checkpoint_round_trip :
  load_seen None = ∅ ∧
  (∀ (w : world) (uname : str),
     let w' := save_seen (set_seen (fun s => {[uname]} ∪ s) w) in
     seen_users w' = {[uname]} ∪ seen_users w ∧
     seen_file w' = Some (checkpoint_of ({[uname]} ∪ seen_users w))) ∧
  (∀ seen : gset str,
     Sorted str_le (checkpoint_of seen) ∧
     NoDup (checkpoint_of seen) ∧
     (∀ x, x ∈ checkpoint_of seen ↔ x ∈ seen) ∧
     load_seen (Some (checkpoint_of seen)) = seen) ∧
  (∀ w : world,
     seen_users (save_seen w) = seen_users w ∧
     load_seen (seen_file (save_seen w)) = seen_users w).
Proof.
  split; [done|]. split; [done|]. split.
  - intros seen. repeat split.
    + apply (@Sorted_merge_sort _ str_le _ str_le_total).
    + rewrite checkpoint_of_perm. apply NoDup_elements.
    + by apply elem_of_checkpoint_of.
    + by apply elem_of_checkpoint_of.
    + apply load_checkpoint.
  - intros w. split; [done|]. apply load_checkpoint.
Qed.

(** ** Round robin *)

Lemma drop_cons_inv {A} (l : list A) j x r :
  drop j l = x :: r → l !! j = Some x ∧ r = drop (S j) l ∧ j < length l.
Proof.
  intros E. assert (l !! j = Some x) as Hj.
  { rewrite <- (Nat.add_0_r j), <- lookup_drop, E. done. }
  split; [done|]. split; [|by eapply lookup_lt_Some].
  rewrite (drop_S _ _ _ Hj) in E. by injection E.
Qed.

(** One step of a cycle over a non-empty list that has given [j] elements
    of its current round. *)
Lemma cycle_next_drop {A} (all : list A) j :
  all ≠ [] → j ≤ length all →
  ∃ x j', cycle_next {| cy_rest := drop j all; cy_all := all |}
            = Some (x, {| cy_rest := drop j' all; cy_all := all |}) ∧
          all !! (j mod length all) = Some x ∧ j' ≤ length all ∧
          ∀ i, (j' + i) mod length all = (j + S i) mod length all.
Proof.
  intros Hne Hj. unfold cycle_next. cbn [cy_rest cy_all].
  destruct (drop j all) as [|x r] eqn:Ed.
  - assert (j = length all) as -> by (apply drop_nil_inv in Ed; lia).
    destruct all as [|x r]; [done|]. exists x, 1. split; [done|].
    rewrite Nat.Div0.mod_same. split; [done|]. split; [simpl; lia|].
    intros i. replace (length (x :: r) + S i) with ((1 + i) + 1 * length (x :: r)) by lia.
    by rewrite Nat.Div0.mod_add.
  - apply drop_cons_inv in Ed as (Hx & -> & Hlt). exists x, (S j).
    split; [done|]. rewrite Nat.mod_small by done. split; [done|]. split; [lia|].
    intros i. f_equal. lia.
Qed.

(** The [i]-th pair of [zip(cycle(all), l)], when the cycle has already
    given [j] elements of its current round. *)
Lemma zip_cycle_lookup {A B} (all : list A) (l : list B) j i y :
  all ≠ [] → j ≤ length all → l !! i = Some y →
  ∃ x, all !! ((j + i) mod length all) = Some x ∧
       zip_cycle {| cy_rest := drop j all; cy_all := all |} l !! i = Some (x, y).
Proof.
  intros Hne. revert j i. induction l as [|y0 l IH]; intros j i Hj Hi; [done|].
  destruct (cycle_next_drop all j Hne Hj) as (x & j' & Hn & Hx & Hj' & Hmod).
  cbn [zip_cycle]. rewrite Hn. destruct i as [|i].
  - injection Hi as ->. exists x. by rewrite Nat.add_0_r.
  - destruct (IH j' i Hj' Hi) as (x' & Hx' & Hz).
    exists x'. split; [|done]. by rewrite <- Hmod.
Qed.

Lemma py_range_length a b : length (py_range a b) = Z.to_nat (b - a).
Proof. unfold py_range. by rewrite length_map, length_seq. Qed.

Lemma py_range_lookup a b k :
  k < Z.to_nat (b - a) → py_range a b !! k = Some (a + Z.of_nat k)%Z.
Proof.
  intros Hk. unfold py_range. rewrite list_lookup_fmap, lookup_seq_lt by done. done.
Qed.

Lemma zip_cycle_length {A B} (c : cycle_state A) (l : list B) :
  cy_all c ≠ [] → length (zip_cycle c l) = length l.
Proof.
  revert c. induction l as [|y l IH]; intros c Hne.
  - simpl. by destruct (cycle_next c) as [[? ?]|].
  - cbn [zip_cycle]. unfold cycle_next.
    destruct (cy_rest c) as [|x r]; [destruct (cy_all c) as [|x r] eqn:E; [done|]|];
      simpl; f_equal; apply IH; simpl; congruence.
Qed.

(** C3. Strict round robin. With [n] credentials ([n] at least one), the
    job built for the [k]-th released identity (counting from 0) has
    credential index [(k mod n) + 1], for every [k] below the number of
    released identities; there is one job per identity, in the order of
    release. The jobs are built from the number of credentials and the
    released list alone, before any job runs, so the assignment does not
    depend on how the jobs end. *)
Theorem round_robin_jobs (n : nat) (fresh : list str) (k : nat) (name : str) :
  0 < n → fresh !! k = Some name →
  length (build_jobs n fresh) = length fresh ∧
  build_jobs n fresh !! k = Some ((Z.of_nat (k mod n) + 1)%Z, name).
Proof.
  intros Hn Hk. unfold build_jobs, py_cycle.
  set (all := py_range 1 (Z.of_nat n + 1)).
  assert (length all = n) as Hlen by (unfold all; rewrite py_range_length; lia).
  assert (all ≠ []) as Hne by (intros E; rewrite E in Hlen; simpl in Hlen; lia).
  split; [by apply zip_cycle_length|].
  destruct (zip_cycle_lookup all fresh 0 k name Hne ltac:(lia) Hk) as (x & Hx & Hz).
  rewrite drop_0 in Hz. rewrite Hz. do 2 f_equal.
  rewrite Hlen in Hx. simpl in Hx. unfold all in Hx.
  rewrite py_range_lookup in Hx; [injection Hx as <-; lia|].
  assert (k mod n < n) by (apply Nat.mod_upper_bound; lia). lia.
Qed.

(** The witness of C3: three identities against two credentials. *)
Lemma round_robin_jobs_witness :
  0 < 2 ∧ [lit "alice"; lit "bob"; lit "carol"] !! 2 = Some (lit "carol") ∧
  build_jobs 2 [lit "alice"; lit "bob"; lit "carol"] !! 2 = Some (1%Z, lit "carol").
Proof.
  split; [lia|]. split; [reflexivity|].
  apply (round_robin_jobs 2 [lit "alice"; lit "bob"; lit "carol"] 2 (lit "carol"));
    [lia | reflexivity].
Defined.

(** ** One job and the seen set *)

(** What a job does to the process state: nothing, unless it returns a
    result, and then it adds its identity and rewrites the checkpoint. *)
Lemma fetch_user_job_world (e : env) (idx : Z) (uname : str) (w : world) :
  match fetch_user_job e (idx, uname) w with
  | (Returns (Some _), w') =>
      w' = save_seen (set_seen (fun s => {[uname]} ∪ s) w)
  | (_, w') => w' = w
  end.
Proof.
  unfold fetch_user_job.
  destruct (py_getitem (reddit_clients e) (idx - 1)) as [cl|x]; [|done].
  destruct (comments_new (api e cl uname)) as [listing|x].
  - by destruct (about (api e cl uname)).
  - by destruct (is_exception x).
Qed.

(** A job whose listing of the comments raises an [Exception], inside
    the [try], returns [None] and leaves the process state as it was: the
    identity is not added to [seen_users] and the checkpoint file is not
    rewritten. An identity that was not seen before is still not seen, so
    the collector admits it the next time its author shows up in the
    stream. *)
Lemma fetch_failure_not_marked (e : env) (idx : Z) (uname : str)
    (cl : client) (x : exn) (w : world) :
  py_getitem (reddit_clients e) (idx - 1) = Returns cl →
  comments_new (api e cl uname) = Raises x →
  is_exception x = true →
  fetch_user_job e (idx, uname) w = (Returns None, w) ∧
  (let w' := (fetch_user_job e (idx, uname) w).2 in
   seen_users w' = seen_users w ∧ seen_file w' = seen_file w ∧
   (uname ∉ seen_users w →
    (uname ∉ seen_users w') ∧
    (∀ fresh c rest,
       stream_loop e (seen_users w') fresh c (FeedComment (Some uname) :: rest) =
       if BATCH_SIZE e <=? length (fresh ++ [uname])
       then while_fresh e (fresh ++ [uname]) c rest
              (fun c' => stream_loop e (seen_users w') (fresh ++ [uname]) c' rest)
       else stream_loop e (seen_users w') (fresh ++ [uname]) c rest))).
Proof.
  intros Hcl Hfetch Hx.
  assert (fetch_user_job e (idx, uname) w = (Returns None, w)) as E.
  { unfold fetch_user_job. by rewrite Hcl, Hfetch, Hx. }
  rewrite E. split; [done|]. cbn [snd]. split; [done|]. split; [done|].
  intros Hnew. split; [done|]. intros fresh c rest.
  cbn [stream_loop]. by rewrite bool_decide_eq_true_2.
Qed.

(** C4 fails on the code. The [try] of [fetch_user_job] holds the listing
    of the comments only. The job of [alice], with the first credential:
    her comments are listed, then the request that loads her profile for
    the user row raises an [Exception]. The job does not return [None]:
    the exception leaves it. ([alice] is not added to [seen_users] and the
    checkpoint file is not written, as the claim has it.) For [carol],
    whose listing raises inside the [try], the job returns [None]. *)
Theorem fetch_profile_failure_escapes :
  let e := Scenario.sample_env 2 in
  let w := Scenario.fresh_world 2 in
  py_getitem (reddit_clients e) (1 - 1) = Returns 0 ∧
  comments_new (api e 0 Scenario.alice) = Returns [Sample.comment1] ∧
  about (api e 0 Scenario.alice) = Raises (OtherException (lit "no created_utc")) ∧
  is_exception (OtherException (lit "no created_utc")) = true ∧
  fetch_user_job e (1%Z, Scenario.alice) w
  = (Raises (OtherException (lit "no created_utc")), w) ∧
  (fetch_user_job e (1%Z, Scenario.alice) w).1 ≠ Returns None ∧
  seen_users w = ∅ ∧ seen_file w = None ∧
  fetch_user_job e (1%Z, Scenario.carol) w = (Returns None, w).
Proof. cbv zeta. repeat split; try (vm_compute; reflexivity). discriminate. Qed.

(** ** Batch mode: what is released *)

(** The list under collection never grows beyond the batch size, and holds
    only names that are not in [seen_users]; what is released has exactly
    [BATCH_SIZE] entries. *)
Lemma stream_loop_released (e : env) (seen : gset str) (feed : list feed_event) :
  ∀ fresh c out c' rest,
    length fresh < BATCH_SIZE e → Forall (fun n => n ∉ seen) fresh →
    stream_loop e seen fresh c feed = Released out c' rest →
    length out = BATCH_SIZE e ∧ Forall (fun n => n ∉ seen) out.
Proof.
  induction feed as [|ev feed IH]; intros fresh c out c' rest Hlen Hall; [done|].
  assert (∀ c0, while_fresh e fresh c0 feed
                  (fun c1 => stream_loop e seen fresh c1 feed) = Released out c' rest →
                length out = BATCH_SIZE e ∧ Forall (fun n => n ∉ seen) out) as Hwhile.
  { intros c0. unfold while_fresh.
    destruct (Nat.ltb_spec (length fresh) (BATCH_SIZE e)); [|lia].
    destruct (cycle_next c0) as [[? c1]|]; [|done]. by apply IH. }
  destruct ev as [|[name|]|x]; cbn [stream_loop].
  - apply Hwhile.
  - destruct (bool_decide_reflect (name ∉ seen)) as [Hn|Hn]; simpl; [|by apply IH].
    assert (Forall (fun n => n ∉ seen) (fresh ++ [name])) as Hall'.
    { apply Forall_app. split; [done|]. by apply Forall_singleton. }
    destruct (Nat.leb_spec (BATCH_SIZE e) (length (fresh ++ [name]))) as [Hge|Hlt].
    + unfold while_fresh. rewrite length_app in *. simpl in *.
      destruct (Nat.ltb_spec (length fresh + 1) (BATCH_SIZE e)); [lia|].
      intros [= <- _ _]. split; [|done]. rewrite length_app. simpl. lia.
    + by apply IH.
  - by apply IH.
  - destruct x; try done; apply Hwhile.
Qed.

Lemma collect_fresh_released (e : env) (w : world) (feed : list feed_event) out c rest :
  collect_fresh e w feed = Released out c rest →
  length out = BATCH_SIZE e ∧ Forall (fun n => n ∉ seen_users w) out.
Proof.
  unfold collect_fresh, while_fresh.
  destruct (Nat.ltb_spec (length (@nil str)) (BATCH_SIZE e)) as [Hlt|Hge].
  - destruct (cycle_next (reddit_cycle w)) as [[? c1]|]; [|done].
    by apply stream_loop_released.
  - intros [= <- _ _]. simpl in *. split; [lia | done].
Qed.

(** C1 fails on the code: the collector tests a name against [seen_users]
    only, never against the names already collected in this cycle. With
    [BATCH_SIZE = 2], nothing seen yet, and a stream in which [bob] writes
    twice in a row, it releases [[bob; bob]]: two entries, one identity,
    and two jobs for [bob]. (With the stream of the specification's
    example, [alice, bob, bob, carol], the batch is full before the second
    [bob] is read, and a batch of three releases [[alice; bob; bob]].) *)
Theorem batch_releases_duplicate :
  let e := Scenario.sample_env 2 in
  let w := Scenario.fresh_world 2 in
  let feed := [Scenario.by_ Scenario.bob; Scenario.by_ Scenario.bob;
               Scenario.by_ Scenario.carol] in
  released_names (collect_fresh e w feed) = Some [Scenario.bob; Scenario.bob] ∧
  ¬ NoDup [Scenario.bob; Scenario.bob] ∧
  build_jobs 2 [Scenario.bob; Scenario.bob] = [(1%Z, Scenario.bob); (2%Z, Scenario.bob)] ∧
  released_names (collect_fresh e w
    [Scenario.by_ Scenario.alice; Scenario.by_ Scenario.bob;
     Scenario.by_ Scenario.bob; Scenario.by_ Scenario.carol])
  = Some [Scenario.alice; Scenario.bob] ∧
  released_names (collect_fresh (Scenario.sample_env 3) (Scenario.fresh_world 3)
    [Scenario.by_ Scenario.alice; Scenario.by_ Scenario.bob;
     Scenario.by_ Scenario.bob; Scenario.by_ Scenario.carol])
  = Some [Scenario.alice; Scenario.bob; Scenario.bob].
Proof.
  cbv zeta. split; [vm_compute; reflexivity|]. split.
  - intros H. apply NoDup_cons in H as [H _]. apply H. apply elem_of_cons. by left.
  - repeat split; vm_compute; reflexivity.
Qed.

(** ** Single mode: the seen set is written before the fetch *)

(** In [run_single] a new author is added to [seen_users] and the
    checkpoint is rewritten before anything is fetched: when the first
    request for that author raises, the function ends with the author
    already recorded, and nothing written for them. *)
Lemma single_loop_marks_first (e : env) cyc idx cl cyc' (w : world) uname rest x :
  uname ∉ seen_users w →
  cycle_next cyc = Some ((idx, cl), cyc') →
  about (api e cl uname) = Raises x →
  single_loop e cyc w (FeedComment (Some uname) :: rest)
  = (Crashed x, save_seen (set_seen (fun s => {[uname]} ∪ s) w)).
Proof.
  intros Hnew Hnext Habout. cbn [single_loop].
  rewrite bool_decide_eq_false_2 by done. by rewrite Hnext, Habout.
Qed.

(** A name that is in [seen_users] is passed over by [run_single]. *)
Lemma single_loop_skips_seen (e : env) cyc (w : world) uname rest :
  uname ∈ seen_users w →
  single_loop e cyc w (FeedComment (Some uname) :: rest) = single_loop e cyc w rest.
Proof. intros Hin. cbn [single_loop]. by rewrite bool_decide_eq_true_2. Qed.

(** C2 fails on the code in single mode. [alice] writes a comment; her
    profile cannot be loaded. [run_single] ends with that exception, and
    [alice] is in [seen_users] and in the checkpoint file although no fetch
    for her has succeeded and no row of hers was written; a process
    started again from that checkpoint passes her over. In batch mode the
    same author, whose job fails in the same way, is not recorded. *)
Theorem single_marks_before_fetch :
  let e := Scenario.sample_env 2 in
  let r := run_single e (Scenario.fresh_world 2) [Scenario.by_ Scenario.alice] in
  r.1 = Crashed (OtherException (lit "no created_utc")) ∧
  elements (seen_users r.2) = [Scenario.alice] ∧
  seen_file r.2 = Some [Scenario.alice] ∧
  parquet_files r.2 = [] ∧
  run_single e (startup e (seen_file r.2))
    [Scenario.by_ Scenario.alice; Scenario.by_ Scenario.alice]
  = (Waiting, startup e (seen_file r.2)) ∧
  seen_file (fetch_user_job e (1%Z, Scenario.alice) (Scenario.fresh_world 2)).2 = None.
Proof. cbv zeta. repeat split; vm_compute; reflexivity. Qed.

(** ** Batch mode: exceptions and the pool *)

Lemma run_jobs_jobs (e : env) jobs w : map fst (run_jobs e jobs w).1 = jobs.
Proof.
  revert w. induction jobs as [|job rest IH]; intros w; [done|].
  cbn [run_jobs]. destruct (fetch_user_job e job w) as [res w1].
  specialize (IH w1). destruct (run_jobs e rest w1) as [results w2].
  simpl in *. by rewrite IH.
Qed.

(** When no job ends with an exception, the loop over the completed jobs
    comes to its end and keeps the rows of every job that returned some. *)
Lemma gather_returns results all_users all_comments :
  Forall (fun r => ∀ x, r.2 ≠ Raises x) results →
  gather results all_users all_comments
  = Returns (all_users ++ omap (fun r => match r.2 with
                                       | Returns (Some (row, _)) => Some row
                                       | _ => None
                                       end) results,
             all_comments ++ concat (omap (fun r => match r.2 with
                                       | Returns (Some (_, rows)) => Some rows
                                       | _ => None
                                       end) results)).
Proof.
  intros H. revert all_users all_comments.
  induction H as [|[job res] results Hres _ IH]; intros all_users all_comments.
  - simpl. by rewrite !app_nil_r.
  - destruct res as [[[row rows]|]|x]; cbn [gather omap snd concat].
    + rewrite IH. simpl. by rewrite <- !app_assoc.
    + apply IH.
    + by destruct (Hres x).
Qed.

(** A job ends with an exception only outside its [try]: a bad
    credential index, an exception that is no [Exception], or a failure to
    load the profile attributes. A job whose listing of comments fails
    with an [Exception] returns [None]. *)
Lemma fetch_user_job_raises (e : env) (idx : Z) (uname : str) (w : world) x :
  (fetch_user_job e (idx, uname) w).1 = Raises x →
  py_getitem (reddit_clients e) (idx - 1) = Raises x ∨
  ∃ cl, py_getitem (reddit_clients e) (idx - 1) = Returns cl ∧
        ((comments_new (api e cl uname) = Raises x ∧ is_exception x = false) ∨
         ((∃ l, comments_new (api e cl uname) = Returns l) ∧
          about (api e cl uname) = Raises x)).
Proof.
  unfold fetch_user_job.
  destruct (py_getitem (reddit_clients e) (idx - 1)) as [cl|y]; [|intros [= ->]; by left].
  intros H. right. exists cl. split; [done|].
  destruct (comments_new (api e cl uname)) as [listing|y].
  - destruct (about (api e cl uname)) as [p|y]; simpl in H; [done|].
    injection H as ->. right. eauto.
  - destruct (is_exception y) eqn:Ey; simpl in H; [done|].
    injection H as ->. by left.
Qed.

(** C5 fails on the code. A batch of [alice] and [bob] against two
    credentials: the comments of [alice] are listed, then loading her
    profile for the user row raises, outside the [try] of the job. The
    exception comes out of [fut.result()] and ends [run_batch]: no parquet
    file is written, neither for [alice] nor for [bob], whose job has
    completed and has recorded him in the checkpoint, so that his rows are
    never collected. ([alice] herself is not in the checkpoint.) When
    instead the listing of the comments fails, as for [carol], the job
    returns [None] and the batch is saved with the rows of [bob]. *)
Theorem batch_job_exception_escapes :
  let e := Scenario.sample_env 2 in
  let r := run_batch e (Scenario.fresh_world 2)
             [Scenario.by_ Scenario.alice; Scenario.by_ Scenario.bob] in
  r.1 = BatchCrashed (OtherException (lit "no created_utc")) ∧
  parquet_files r.2 = [] ∧
  seen_file r.2 = Some [Scenario.bob] ∧
  elements (seen_users r.2) = [Scenario.bob] ∧
  (let r' := run_batch e (Scenario.fresh_world 2)
               [Scenario.by_ Scenario.carol; Scenario.by_ Scenario.bob] in
   r'.1 = BatchSaved [Scenario.carol; Scenario.bob] [] ∧
   map (fun f => match f.2 with
                 | UserRows rows => map u_username rows
                 | CommentRows rows => map username rows
                 end) (parquet_files r'.2) = [[Scenario.bob]; [Scenario.bob]] ∧
   seen_file r'.2 = Some [Scenario.bob]).
Proof. cbv zeta. repeat split; vm_compute; reflexivity. Qed.

(** ** The merge script *)

Section Dedup.

Context (subset : list str).

Local Abbreviation key := (row_key subset).
Local Abbreviation dedup := (dedup_go subset).

Lemma dedup_go_ext keys1 keys2 rs :
  (∀ k, k ∈ keys1 ↔ k ∈ keys2) → dedup keys1 rs = dedup keys2 rs.
Proof.
  revert keys1 keys2. induction rs as [|r rs IH]; intros keys1 keys2 H; [done|].
  cbn [dedup_go]. rewrite (bool_decide_ext _ _ (H (key r))).
  destruct (bool_decide (key r ∈ keys2)); [by apply IH|].
  f_equal. apply IH. intros k. rewrite !elem_of_cons, H. done.
Qed.

Lemma dedup_go_app keys a b :
  dedup keys (a ++ b) = dedup keys a ++ dedup (map key (dedup keys a) ++ keys) b.
Proof.
  revert keys. induction a as [|r a IH]; intros keys; [done|].
  cbn [app dedup_go]. destruct (bool_decide (key r ∈ keys)); [apply IH|].
  cbn [map app]. f_equal. rewrite IH. f_equal. apply dedup_go_ext.
  intros k. rewrite !elem_of_app, !elem_of_cons, !elem_of_app. tauto.
Qed.

(** Every key of the input is the key of a row that was kept, or was
    known before. *)
Lemma dedup_go_covers keys rs r :
  r ∈ rs → key r ∈ map key (dedup keys rs) ++ keys.
Proof.
  revert keys. induction rs as [|r0 rs IH]; intros keys Hin.
  - by apply elem_of_nil in Hin.
  - cbn [dedup_go]. apply elem_of_cons in Hin as [->|Hin].
    + destruct (bool_decide_reflect (key r0 ∈ keys)).
      * apply elem_of_app. by right.
      * cbn [map app]. apply elem_of_cons. by left.
    + destruct (bool_decide_reflect (key r0 ∈ keys)); [by apply IH|].
      cbn [map app]. specialize (IH (key r0 :: keys) Hin).
      rewrite elem_of_cons, elem_of_app. rewrite elem_of_app, elem_of_cons in IH. tauto.
Qed.

Lemma dedup_go_all_known keys rs :
  (∀ r, r ∈ rs → key r ∈ keys) → dedup keys rs = [].
Proof.
  induction rs as [|r rs IH]; intros H; [done|].
  cbn [dedup_go]. rewrite bool_decide_eq_true_2 by (apply H, elem_of_cons; by left).
  apply IH. intros r' Hr'. apply H, elem_of_cons. by right.
Qed.

(** The rows kept have keys that were not known and that differ from one
    another. *)
Lemma dedup_go_distinct keys rs :
  Forall (fun r => key r ∉ keys) (dedup keys rs) ∧ NoDup (map key (dedup keys rs)).
Proof.
  revert keys. induction rs as [|r rs IH]; intros keys.
  - split; constructor.
  - cbn [dedup_go]. destruct (bool_decide_reflect (key r ∈ keys)) as [|Hn]; [apply IH|].
    destruct (IH (key r :: keys)) as [Hall Hnd]. split.
    + constructor; [done|]. eapply Forall_impl; [exact Hall|].
      intros r' Hr'. simpl in Hr'. by apply not_elem_of_cons in Hr' as [_ ?].
    + cbn [map]. apply NoDup_cons. split; [|done].
      intros (r' & Hk & Hr')%list_elem_of_fmap.
      rewrite Forall_forall in Hall. apply (Hall _ Hr'). rewrite <- Hk.
      apply elem_of_cons. by left.
Qed.

Lemma dedup_go_fixed keys rs :
  Forall (fun r => key r ∉ keys) rs → NoDup (map key rs) → dedup keys rs = rs.
Proof.
  revert keys. induction rs as [|r rs IH]; intros keys Hall Hnd; [done|].
  apply Forall_cons in Hall as [Hr Hall]. cbn [map] in Hnd.
  apply NoDup_cons in Hnd as [Hnr Hnd].
  cbn [dedup_go]. rewrite bool_decide_eq_false_2 by done. f_equal.
  apply IH; [|done]. apply Forall_forall. intros r' Hr'.
  rewrite Forall_forall in Hall. apply not_elem_of_cons. split; [|by apply Hall].
  intros E. apply Hnr. rewrite <- E. apply list_elem_of_fmap. by exists r'.
Qed.

(** First seen wins: a row is kept when no row before it has its key. *)
Lemma dedup_go_keeps_first keys l1 r l2 :
  key r ∉ keys → key r ∉ map key l1 → r ∈ dedup keys (l1 ++ r :: l2).
Proof.
  revert keys. induction l1 as [|r0 l1 IH]; intros keys Hk Hl1.
  - cbn [app dedup_go]. rewrite bool_decide_eq_false_2 by done.
    apply elem_of_cons. by left.
  - cbn [map] in Hl1. apply not_elem_of_cons in Hl1 as [Hne Hl1].
    cbn [app dedup_go]. destruct (bool_decide (key r0 ∈ keys)); [by apply IH|].
    apply elem_of_cons. right. apply IH; [|done].
    apply not_elem_of_cons. done.
Qed.

Lemma dedup_go_idempotent rs : dedup [] (dedup [] rs) = dedup [] rs.
Proof.
  destruct (dedup_go_distinct [] rs) as [Hall Hnd]. by apply dedup_go_fixed.
Qed.

Lemma dedup_go_twice rs : dedup [] (rs ++ rs) = dedup [] rs.
Proof.
  rewrite dedup_go_app, (dedup_go_all_known (map key (dedup [] rs) ++ []) rs).
  - apply app_nil_r.
  - intros r Hr. by apply dedup_go_covers.
Qed.

End Dedup.

Lemma drop_duplicates_idempotent subset df df' :
  drop_duplicates subset df = Returns df' → drop_duplicates subset df' = Returns df'.
Proof.
  unfold drop_duplicates.
  destruct (filter (fun c => c ∉ columns df) subset) eqn:E; [|done].
  intros [= <-]. cbn [columns rows]. by rewrite E, dedup_go_idempotent.
Qed.

Lemma union_columns_app acc a b :
  union_columns acc (a ++ b) = union_columns (union_columns acc a) b.
Proof. revert acc. induction a as [|df a IH]; intros acc; [done|]. apply IH. Qed.

Lemma union_columns_grows acc dfs c : c ∈ acc → c ∈ union_columns acc dfs.
Proof.
  revert acc. induction dfs as [|df dfs IH]; intros acc H; [done|].
  apply IH, elem_of_app. by left.
Qed.

Lemma union_columns_has acc dfs df c :
  df ∈ dfs → c ∈ columns df → c ∈ union_columns acc dfs.
Proof.
  revert acc. induction dfs as [|d dfs IH]; intros acc Hdf Hc.
  - by apply elem_of_nil in Hdf.
  - cbn [union_columns]. apply elem_of_cons in Hdf as [<-|Hdf]; [|by apply IH].
    apply union_columns_grows. destruct (decide (c ∈ acc)).
    + apply elem_of_app. by left.
    + apply elem_of_app. right. apply list_elem_of_filter. split; [done|].
      by apply elem_of_remove_dups.
Qed.

Lemma union_columns_known acc dfs :
  (∀ df c, df ∈ dfs → c ∈ columns df → c ∈ acc) → union_columns acc dfs = acc.
Proof.
  induction dfs as [|d dfs IH]; intros H; [done|].
  cbn [union_columns].
  assert (filter (fun c => c ∉ acc) (remove_dups (columns d)) = []) as ->.
  { destruct (filter (fun c => c ∉ acc) (remove_dups (columns d))) as [|c l] eqn:E; [done|].
    assert (c ∈ filter (fun c => c ∉ acc) (remove_dups (columns d))) as Hc
      by (rewrite E; apply elem_of_cons; by left).
    apply list_elem_of_filter in Hc as [Hn Hc]. rewrite elem_of_remove_dups in Hc.
    destruct Hn. apply (H d); [apply elem_of_cons; by left | done]. }
  rewrite app_nil_r. apply IH. intros df c Hdf. apply H, elem_of_cons. by right.
Qed.

Lemma union_columns_none acc dfs c :
  c ∉ acc → (∀ df, df ∈ dfs → c ∉ columns df) → c ∉ union_columns acc dfs.
Proof.
  revert acc. induction dfs as [|d dfs IH]; intros acc Hacc H; [done|].
  cbn [union_columns]. apply IH.
  - rewrite elem_of_app, list_elem_of_filter, elem_of_remove_dups.
    intros [?|[_ Hc]]; [done|]. by apply (H d); [apply elem_of_cons; left|].
  - intros df Hdf. apply H, elem_of_cons. by right.
Qed.

(** The same artifacts read twice give the same merged rows as read
    once, whatever the key columns. *)
Lemma drop_duplicates_twice subset dfs :
  drop_duplicates subset (pd_concat (dfs ++ dfs)) = drop_duplicates subset (pd_concat dfs).
Proof.
  unfold drop_duplicates, pd_concat. cbn [columns rows].
  rewrite union_columns_app, (union_columns_known (union_columns [] dfs) dfs)
    by (intros df c; apply union_columns_has).
  destruct (filter _ subset); [|done].
  by rewrite flat_map_app, dedup_go_twice.
Qed.

(** No table that the collector writes has a column [id]: the comment id
    is stored under [comment_id]. *)
Lemma collector_table_has_no_id (t : table) : lit "id" ∉ columns (table_frame t).
Proof.
  apply (bool_decide_eq_false _).
  destruct t as [[|r rs]|[|r rs]]; cbn [table_frame columns]; try reflexivity.
  unfold user_cells. destruct (u_trophy_count r), (u_client_idx r); vm_compute; reflexivity.
Qed.

(** On tables written by the collector the merge script always ends with
    an exception: [exit(1)] when there is no file, the [KeyError] of
    [drop_duplicates(subset=["id"])] otherwise. *)
Lemma merge_all_files_collector (listing : list (str * frame)) :
  Forall (fun f => ∃ t, f.2 = table_frame t) listing →
  merge_all_files listing = Raises (SystemExit 1) ∨
  merge_all_files listing = Raises (KeyError [lit "id"]).
Proof.
  intros H. unfold merge_all_files, merge_with.
  set (files := filter _ listing).
  assert (Forall (fun f => ∃ t, f.2 = table_frame t) files) as Hfiles.
  { apply Forall_forall. intros f Hf%list_elem_of_filter.
    rewrite Forall_forall in H. apply H, Hf. }
  destruct files as [|f files]; [by left|]. right.
  unfold drop_duplicates.
  assert (lit "id" ∉ columns (pd_concat (map snd (f :: files)))) as Hid.
  { apply union_columns_none; [apply not_elem_of_nil|].
    intros df (g & -> & Hg)%list_elem_of_fmap.
    rewrite Forall_forall in Hfiles. destruct (Hfiles g Hg) as [t ->].
    apply collector_table_has_no_id. }
  cbn [filter list_filter]. by rewrite decide_True.
Qed.

(** What the merge script computes with the key columns [subset], once the
    listing holds a parquet file. *)
Lemma merge_with_frames subset (listing : list (str * frame)) f files :
  filter (fun f => endswith (lit ".parquet") f.1
                   && negb (bool_decide (f.1 = lit "all_comments_merged.parquet")))
         listing = f :: files →
  merge_with subset listing = drop_duplicates subset (pd_concat (map snd (f :: files))).
Proof. intros E. unfold merge_with. by rewrite E. Qed.

(** C7 fails on the code. The collector stores the id of a comment in the
    column [comment_id]; the merge script removes duplicates by the column
    [id]. On a data directory that holds one batch of comment rows written
    by the collector, the script ends with [KeyError] for [id] and writes
    nothing, and so it does when the batch is there twice. Keyed by
    [comment_id], the same steps keep the first row of each comment and
    give as many rows for the doubled input as for the single one. *)
Theorem merge_script_key_error :
  let e := Scenario.sample_env 2 in
  let written := process_comments e Scenario.bob
                   [Sample.comment1; Sample.comment2; Sample.comment1] in
  let artifact := table_frame (CommentRows written) in
  let one := [(lit "batch_3_20260101T000000.parquet", artifact)] in
  let two := [(lit "batch_3_20260101T000000.parquet", artifact);
              (lit "batch_3_20260101T000005.parquet", artifact)] in
  merge_all_files one = Raises (KeyError [lit "id"]) ∧
  merge_all_files two = Raises (KeyError [lit "id"]) ∧
  (∃ df, merge_with [lit "comment_id"] one = Returns df ∧
         map (fun r => r !! lit "comment_id") (rows df)
         = [Some (CStr (lit "c1")); Some (CStr (lit "c2"))] ∧
         merge_with [lit "comment_id"] two = Returns df).
Proof.
  cbv zeta. split; [vm_compute; reflexivity|]. split; [vm_compute; reflexivity|].
  eexists. split; [reflexivity|]. split; vm_compute; reflexivity.
Qed.

(** * More of the collector and of the helper scripts *)

(** ** [clean_text]: what the result looks like *)

Lemma clean_text_twice t : clean_text (clean_text t) = clean_text t.
Proof.
  rewrite (clean_text_eq (clean_text t)), (no_url_fixed _ (clean_text_no_url t)).
  rewrite nl_to_space_fixed; rewrite clean_text_eq.
  - apply strip_idem.
  - apply Forall_strip, nl_to_space_no_nl.
Qed.

Lemma dropwhile_fixed_head p s c :
  dropwhile p s = s → head s = Some c → p c = false.
Proof.
  intros E Hc. destruct s as [|d r]; [done|]. injection Hc as ->.
  by apply (dropwhile_head p (c :: r) c r).
Qed.

Lemma strip_lstrip s : lstrip (strip s) = strip s.
Proof. apply lstrip_rstrip_lstrip. Qed.

Lemma strip_rstrip s : rstrip (strip s) = strip s.
Proof. unfold strip. apply rstrip_idem. Qed.

Lemma strip_ends s :
  (∀ c, head (strip s) = Some c → isspace c = false) ∧
  (∀ c, last (strip s) = Some c → isspace c = false).
Proof.
  split; intros c Hc.
  - eapply dropwhile_fixed_head; [apply (strip_lstrip s) | done].
  - apply last_Some in Hc as [l' E].
    pose proof (strip_rstrip s) as Hr. unfold rstrip in Hr.
    rewrite E, rev_app_distr in Hr. simpl in Hr.
    destruct (isspace c) eqn:Ec; [|done]. exfalso.
    apply (f_equal (@length N)) in Hr. rewrite length_rev, length_app in Hr.
    destruct (dropwhile_suffix isspace (rev l')) as [pre Hpre].
    apply (f_equal (@length N)) in Hpre. rewrite length_rev, length_app in Hpre.
    simpl in Hr. lia.
Qed.

(** X1. The result of [clean_text] has no match of the URL pattern at any
    position, has no newline character, and neither begins nor ends with a
    white space character. *)
Theorem clean_text_result (t : str) :
  no_url (clean_text t) ∧
  Forall (fun c => c ≠ 10%N) (clean_text t) ∧
  (∀ c, head (clean_text t) = Some c → isspace c = false) ∧
  (∀ c, last (clean_text t) = Some c → isspace c = false).
Proof.
  split; [apply clean_text_no_url|]. split.
  - rewrite clean_text_eq. apply Forall_strip, nl_to_space_no_nl.
  - rewrite clean_text_eq. apply strip_ends.
Qed.

(** X2. The texts that [clean_text] leaves as they are are exactly those
    with no match of the URL pattern, no newline, and nothing for [strip]
    to remove. *)
Theorem clean_text_fixed_points (t : str) :
  clean_text t = t ↔
  no_url t ∧ Forall (fun c => c ≠ 10%N) t ∧ strip t = t.
Proof.
  split.
  - intros E. rewrite <- E. split; [apply clean_text_no_url|]. split.
    + rewrite clean_text_eq. apply Forall_strip, nl_to_space_no_nl.
    + rewrite clean_text_eq. apply strip_idem.
  - intros (Hu & Hn & Hs).
    by rewrite clean_text_eq, (no_url_fixed _ Hu), (nl_to_space_fixed _ Hn).
Qed.

Lemma url_sub_sublist s : url_sub s `sublist_of` s.
Proof.
  remember (length s) as n eqn:Hn. revert s Hn.
  induction n as [n IH] using lt_wf_ind. intros s ->.
  rewrite url_sub_eq. destruct (url_match s) as [rest|] eqn:E.
  - pose proof (url_match_shorter _ _ E) as Hlt.
    destruct s as [|c r]; [done|].
    destruct (url_match_suffix _ _ _ E) as [pre ->].
    apply sublist_cons, sublist_inserts_l. by eapply IH.
  - destruct s as [|c r]; [done|]. apply sublist_skip. eapply IH; [|done]. simpl. lia.
Qed.

Lemma strip_sublist s : strip s `sublist_of` s.
Proof.
  destruct (strip_parts s) as (l & r & E). rewrite E at 2.
  apply sublist_inserts_l, sublist_inserts_r. done.
Qed.

(** X3. [clean_text] only removes characters: its result is a
    subsequence of the text with every newline turned into a space, so it
    is never longer than the text. *)
Theorem clean_text_subsequence (t : str) :
  clean_text t `sublist_of` map nl_to_space t ∧
  length (clean_text t) ≤ length t.
Proof.
  assert (clean_text t `sublist_of` map nl_to_space t) as H.
  { rewrite clean_text_eq. etrans; [apply strip_sublist|].
    apply (fmap_sublist nl_to_space), url_sub_sublist. }
  split; [done|]. apply sublist_length in H. by rewrite length_map in H.
Qed.

(** ** [detect_lang] and [classify_sentiment] *)

Section EnrichmentMore.

Context (lower : str → str) (ft_predict : str → ft_result)
        (sent_pipe : str → list (list (str * float))).

Local Abbreviation detect := (detect_lang lower ft_predict).
Local Abbreviation row_of := (comment_row_of lower ft_predict sent_pipe).
Local Abbreviation process := (process_user_comments lower ft_predict sent_pipe).
Local Abbreviation classify := (classify_sentiment lower sent_pipe).
Local Abbreviation loop := (classify_loop lower).

(** X4. [detect_lang] cleans its argument itself, so it gives the same
    answer on a text and on the cleaned text; the language of a row is the
    language detected for the raw body of the comment. *)
Theorem detect_lang_of_clean (t : str) (uname : str) (c : comment) :
  detect (clean_text t) = detect t ∧
  language (row_of uname c) = detect (or_empty (c_body c)).
Proof.
  assert (∀ x, detect (clean_text x) = detect x) as H.
  { intros x. unfold detect_lang, detect_lang_with. by rewrite clean_text_twice. }
  split; [apply H|]. unfold comment_row_of. cbn [language]. apply H.
Qed.

(** No number is at most a score that is not a number. *)
Lemma leb_nan_r (x s : float) : PrimFloat.is_nan s = true → PrimFloat.leb x s = false.
Proof.
  unfold PrimFloat.is_nan. rewrite FloatAxioms.eqb_spec, FloatAxioms.leb_spec. intros H.
  assert (Prim2SF s = S754_nan) as ->.
  { destruct (Prim2SF s) as [[]|[]| |[] m ex]; try reflexivity; exfalso;
      unfold SFeqb, SFcompare in H; try discriminate H;
      rewrite Z.compare_refl, Pos.compare_cont_refl in H; discriminate H. }
  unfold SFleb. destruct (Prim2SF x); reflexivity.
Qed.

(** X5. What [detect_lang] answers. When the cleaned, lower-cased text
    is not empty and the model gives a pair with at least one label and
    one score, the answer is the first label without ["__label__"] if the
    first score is no less than the threshold, and ["unknown"] if it is
    below the threshold or is not a number. In every other case (an empty
    text, a result that is no pair, no label or no score) the answer is
    ["unknown"]. So an answer other than ["unknown"] is the first label of
    the model, stripped, with a first score that reaches the threshold. *)
Theorem detect_lang_answers (t : str) :
  (detect t = lit "unknown" ∨
   ∃ l0 ls s0 ss,
     lower (clean_text t) ≠ [] ∧
     ft_predict (lower (clean_text t)) = FtPair (l0 :: ls) (s0 :: ss) ∧
     PrimFloat.leb FT_THRESHOLD s0 = true ∧
     detect t = replace (lit "__label__") [] l0) ∧
  (∀ l0 ls s0 ss,
     lower (clean_text t) ≠ [] →
     ft_predict (lower (clean_text t)) = FtPair (l0 :: ls) (s0 :: ss) →
     (PrimFloat.leb FT_THRESHOLD s0 = true →
      detect t = replace (lit "__label__") [] l0) ∧
     (PrimFloat.leb FT_THRESHOLD s0 = false → detect t = lit "unknown") ∧
     (PrimFloat.is_nan s0 = true → detect t = lit "unknown")) ∧
  (lower (clean_text t) = [] → detect t = lit "unknown") ∧
  (ft_predict (lower (clean_text t)) = FtOther → detect t = lit "unknown") ∧
  (∀ labels scores,
     ft_predict (lower (clean_text t)) = FtPair labels scores →
     labels = [] ∨ scores = [] → detect t = lit "unknown").
Proof.
  unfold detect_lang, detect_lang_with. split; [|split; [|split; [|split]]].
  - destruct (lower (clean_text t)) as [|c r] eqn:El; [by left|].
    destruct (ft_predict (c :: r)) as [[|l0 ls] [|s0 ss]|] eqn:Ef; try by left.
    destruct (PrimFloat.leb FT_THRESHOLD s0) eqn:Es; [|by left].
    right. by exists l0, ls, s0, ss.
  - intros l0 ls s0 ss Hne Hf. rewrite Hf.
    destruct (lower (clean_text t)) as [|c r]; [done|].
    split; [|split].
    + by intros ->.
    + by intros ->.
    + intros Hnan. rewrite leb_nan_r; done.
  - by intros ->.
  - intros ->. by destruct (lower (clean_text t)).
  - intros labels scores -> H. destruct (lower (clean_text t)); [done|].
    destruct H as [-> | ->]; [done|]. by destruct labels.
Qed.

Lemma detect_lang_empty : lower [] = [] → detect [] = lit "unknown".
Proof.
  intros Hl. unfold detect_lang, detect_lang_with.
  change (clean_text []) with (@nil N). by rewrite Hl.
Qed.

(** X6. When [str.lower] maps the empty string to itself, the language
    alone decides the gate: a row has a sentiment exactly when its language
    is ["en"], and a row with language ["en"] has a cleaned body that is
    not empty. *)
Theorem gate_by_language (lower_nil : lower [] = [])
    (uname : str) (raw : list comment) :
  Forall (fun r =>
    (sentiment r ≠ None ↔ language r = lit "en") ∧
    (language r = lit "en" → body_clean r ≠ []))
    (process uname raw).
Proof.
  rewrite process_user_comments_map. apply Forall_map, Forall_forall.
  intros c _. unfold comment_row_of. cbn [sentiment language body_clean].
  set (clean_body := clean_text (or_empty (c_body c))).
  assert (detect clean_body = lit "en" → clean_body ≠ []) as Hne.
  { intros Hen E. rewrite E, detect_lang_empty in Hen by done. discriminate Hen. }
  split; [|done].
  destruct (bool_decide_reflect (detect clean_body = lit "en")) as [Hen|Hen].
  - rewrite bool_decide_eq_false_2 by auto. simpl. done.
  - simpl. done.
Qed.

Lemma classify_loop_app out a b : loop out (a ++ b) = loop (loop out a) b.
Proof. revert out. induction a as [|e a IH]; intros out; [done|]. apply IH. Qed.

(** X7. When the classifier gives several entries whose labels agree
    after lower-casing, the mapping keeps the score of the last of them;
    the mapping is empty when the classifier gives an empty answer. *)
Theorem classify_sentiment_last_wins (text : str)
    (scores a b : list (str * float)) (others : list (list (str * float)))
    (l : str) (p : float) :
  sent_pipe (slice_to 512 text) = scores :: others →
  scores = a ++ (l, p) :: b →
  lower l ∉ map (fun e => lower e.1) b →
  classify text !! lower l = Some p ∧
  (∀ t', sent_pipe (slice_to 512 t') = [] → classify t' = ∅).
Proof.
  intros E -> Hb. split.
  - unfold classify_sentiment. rewrite E, classify_loop_app. cbn [classify_loop fst snd].
    rewrite classify_loop_keep by done. apply lookup_insert_eq.
  - intros t' E'. unfold classify_sentiment. by rewrite E'.
Qed.

End EnrichmentMore.

(** The witness of X6. *)
Lemma gate_by_language_witness :
  Forall (fun r => sentiment r ≠ None ↔ language r = lit "en")
    (process_user_comments Sample.ascii_lower Sample.ft_en Sample.three_scores
       (lit "bob") [Sample.comment1; Sample.comment2]).
Proof.
  eapply Forall_impl.
  - apply (gate_by_language Sample.ascii_lower Sample.ft_en Sample.three_scores).
    reflexivity.
  - intros r H. apply H.
Defined.

(** The witness of X7: ["POSITIVE"] and ["positive"] share a key, and the
    score of the second one stays. *)
Lemma classify_sentiment_last_wins_witness :
  classify_sentiment Sample.ascii_lower MoreSamples.twice_positive (lit "fine")
    !! lit "positive" = Some 0x1.8p-1%float.
Proof.
  apply (classify_sentiment_last_wins Sample.ascii_lower MoreSamples.twice_positive
           (lit "fine")
           [(lit "POSITIVE", 0x1p-2%float); (lit "negative", 0x1p-3%float);
            (lit "positive", 0x1.8p-1%float)]
           [(lit "POSITIVE", 0x1p-2%float); (lit "negative", 0x1p-3%float)] []
           [] (lit "positive") 0x1.8p-1%float).
  - reflexivity.
  - reflexivity.
  - apply not_elem_of_nil.
Defined.

(** ** The checkpoint file *)

(** X8. The list written to the checkpoint file is determined by the set
    of seen names: any sorted list without repetition that holds exactly
    the names of the set is the list that [save_seen] writes. *)
Theorem checkpoint_canonical (seen : gset str) (names : list str) :
  Sorted str_le names → NoDup names → (∀ x, x ∈ names ↔ x ∈ seen) →
  checkpoint_of seen = names.
Proof.
  intros Hs Hn Hm.
  pose proof str_le_trans. pose proof str_le_antisym.
  apply (Sorted_unique str_le).
  - apply (@Sorted_merge_sort _ str_le _ str_le_total).
  - done.
  - apply NoDup_Permutation; [|done|].
    + rewrite checkpoint_of_perm. apply NoDup_elements.
    + intros x. by rewrite elem_of_checkpoint_of, Hm.
Qed.

(** The witness of X8. *)
Lemma checkpoint_canonical_witness :
  checkpoint_of (list_to_set [Scenario.bob; Scenario.alice])
  = [Scenario.alice; Scenario.bob].
Proof.
  apply checkpoint_canonical.
  - repeat constructor.
  - by apply (bool_decide_unpack _).
  - intros x. rewrite elem_of_list_to_set, !elem_of_cons. tauto.
Defined.

(** ** Jobs *)

Lemma fetch_user_job_result (e : env) (idx : Z) (uname : str) (w w' : world)
    (row : user_row) (rows : list comment_row) :
  fetch_user_job e (idx, uname) w = (Returns (Some (row, rows)), w') →
  u_username row = uname ∧ Forall (fun r => username r = uname) rows ∧
  length rows ≤ MAX_COMMENTS ∧
  w' = save_seen (set_seen (fun s => {[uname]} ∪ s) w).
Proof.
  unfold fetch_user_job.
  destruct (py_getitem (reddit_clients e) (idx - 1)) as [cl|x]; [|done].
  destruct (comments_new (api e cl uname)) as [listing|x];
    [|by destruct (is_exception x)].
  destruct (about (api e cl uname)) as [p|x]; [|done].
  intros [= <- <- <-]. split; [done|]. unfold process_comments.
  rewrite process_user_comments_map. split; [|split; [|done]].
  - apply Forall_map, Forall_forall. done.
  - rewrite length_map, length_take. lia.
Qed.

(** X10. A job that returns a result returns the user row of its
    identity and at most [MAX_COMMENTS] comment rows, all of that identity;
    it has added the identity to [seen_users] and rewritten the checkpoint
    file with the whole set, and it has written no parquet file. *)
Theorem fetch_user_job_success (e : env) (idx : Z) (uname : str) (w w' : world)
    (row : user_row) (rows : list comment_row) :
  fetch_user_job e (idx, uname) w = (Returns (Some (row, rows)), w') →
  u_username row = uname ∧
  Forall (fun r => username r = uname) rows ∧
  length rows ≤ MAX_COMMENTS ∧
  seen_users w' = {[uname]} ∪ seen_users w ∧
  seen_file w' = Some (checkpoint_of (seen_users w')) ∧
  load_seen (seen_file w') = seen_users w' ∧
  parquet_files w' = parquet_files w.
Proof.
  intros (Hu & Hr & Hl & ->)%fetch_user_job_result.
  repeat split; try done. apply load_checkpoint.
Qed.

(** The witness of X10: the job of [bob]. *)
Lemma fetch_user_job_success_witness :
  ∃ row rows w',
    fetch_user_job (Scenario.sample_env 2) (2%Z, Scenario.bob) (Scenario.fresh_world 2)
    = (Returns (Some (row, rows)), w') ∧ u_username row = Scenario.bob.
Proof.
  eexists _, _, _. split; [reflexivity|].
  eapply (fetch_user_job_success (Scenario.sample_env 2) 2 Scenario.bob
            (Scenario.fresh_world 2)).
  reflexivity.
Defined.

Lemma build_jobs_at (n : nat) (fresh : list str) (k : nat) (name : str) :
  0 < n → fresh !! k = Some name →
  build_jobs n fresh !! k = Some ((Z.of_nat (k mod n) + 1)%Z, name).
Proof.
  intros Hn Hk. unfold build_jobs, py_cycle.
  set (all := py_range 1 (Z.of_nat n + 1)).
  assert (length all = n) as Hlen by (unfold all; rewrite py_range_length; lia).
  assert (all ≠ []) as Hne by (intros E; rewrite E in Hlen; simpl in Hlen; lia).
  destruct (zip_cycle_lookup all fresh 0 k name Hne ltac:(lia) Hk) as (x & Hx & Hz).
  rewrite drop_0 in Hz. rewrite Hz. do 2 f_equal.
  rewrite Hlen in Hx. simpl in Hx. unfold all in Hx.
  rewrite py_range_lookup in Hx; [injection Hx as <-; lia|].
  assert (k mod n < n) by (apply Nat.mod_upper_bound; lia). lia.
Qed.

(** X11. The credential index of a job built by [run_batch] is always a
    valid place in [reddit_clients]: the job of the [k]-th released
    identity runs on the client at position [k mod N], and the lookup
    [reddit_clients[idx - 1]] of [fetch_user_job] does not raise. *)
Theorem job_client_in_range (e : env) (fresh : list str) (k : nat) (name : str) :
  reddit_clients e ≠ [] → fresh !! k = Some name →
  ∃ idx cl,
    build_jobs (length (reddit_clients e)) fresh !! k = Some (idx, name) ∧
    reddit_clients e !! (k mod length (reddit_clients e)) = Some cl ∧
    py_getitem (reddit_clients e) (idx - 1) = Returns cl.
Proof.
  intros Hne Hk. set (n := length (reddit_clients e)).
  assert (0 < n) as Hn by (unfold n; destruct (reddit_clients e); [done | simpl; lia]).
  assert (k mod n < n) as Hlt by (apply Nat.mod_upper_bound; lia).
  destruct (lookup_lt_is_Some_2 (reddit_clients e) (k mod n) Hlt) as [cl Hcl].
  exists (Z.of_nat (k mod n) + 1)%Z, cl. split; [by apply build_jobs_at|].
  split; [done|]. unfold py_getitem.
  replace (Z.of_nat (k mod n) + 1 - 1)%Z with (Z.of_nat (k mod n)) by lia.
  do 2 (destruct (Z.ltb_spec (Z.of_nat (k mod n)) 0); [lia|]).
  by rewrite Nat2Z.id, Hcl.
Qed.

(** The witness of X11. *)
Lemma job_client_in_range_witness :
  ∃ idx cl,
    build_jobs 2 [Scenario.alice; Scenario.bob; Scenario.carol] !! 2
    = Some (idx, Scenario.carol) ∧
    [0; 1] !! 0 = Some cl ∧ py_getitem [0; 1] (idx - 1) = Returns cl.
Proof.
  apply (job_client_in_range (Scenario.sample_env 2)
           [Scenario.alice; Scenario.bob; Scenario.carol] 2 Scenario.carol).
  - discriminate.
  - reflexivity.
Defined.

(** ** Batch mode: which names are released *)

Lemma cycle_next_some {A} (c : cycle_state A) :
  cy_all c ≠ [] → ∃ x c', cycle_next c = Some (x, c') ∧ cy_all c' = cy_all c.
Proof.
  intros Hne. unfold cycle_next. destruct (cy_rest c) as [|x r]; [|by eexists _, _].
  destruct (cy_all c) as [|x r] eqn:E; [done|]. by eexists _, _.
Qed.

Lemma stream_loop_exact (e : env) (seen : gset str) (feed : list feed_event) :
  Forall (fun ev => ∀ x, ev = FeedRaise x → x = ResponseException) feed →
  ∀ fresh c,
    cy_all c ≠ [] → length fresh < BATCH_SIZE e →
    (BATCH_SIZE e ≤ length fresh + length (unseen_authors seen feed) →
     released_names (stream_loop e seen fresh c feed)
     = Some (take (BATCH_SIZE e) (fresh ++ unseen_authors seen feed))) ∧
    (length fresh + length (unseen_authors seen feed) < BATCH_SIZE e →
     ∃ c', stream_loop e seen fresh c feed
           = Blocked (fresh ++ unseen_authors seen feed) c').
Proof.
  induction 1 as [|ev feed Hev _ IH]; intros fresh c Hc Hlen.
  - simpl. rewrite app_nil_r. split; [lia | by eexists].
  - assert (while_fresh e fresh c feed (fun c' => stream_loop e seen fresh c' feed)
            = stream_loop e seen fresh
                match cycle_next c with Some (_, c') => c' | None => c end feed
            ∧ cy_all match cycle_next c with Some (_, c') => c' | None => c end ≠ [])
      as [Hw Hc'].
    { unfold while_fresh. destruct (Nat.ltb_spec (length fresh) (BATCH_SIZE e)); [|lia].
      destruct (cycle_next_some c Hc) as (x & c' & -> & E). destruct x.
      split; [done | congruence]. }
    destruct ev as [|[name|]|x]; cbn [stream_loop unseen_authors].
    + rewrite Hw. by apply IH.
    + destruct (bool_decide_reflect (name ∉ seen)) as [Hn|Hn]; simpl; [|by apply IH].
      destruct (Nat.leb_spec (BATCH_SIZE e) (length (fresh ++ [name]))) as [Hge|Hlt].
      * rewrite length_app in Hge. simpl in Hge.
        unfold while_fresh. rewrite length_app. simpl.
        destruct (Nat.ltb_spec (length fresh + 1) (BATCH_SIZE e)); [lia|].
        split; [|lia]. intros _. simpl. f_equal.
        rewrite (cons_middle name fresh (unseen_authors seen feed)), app_assoc.
        rewrite take_app_le.
        2:{ rewrite length_app. simpl. lia. }
        rewrite take_ge; [done|]. rewrite length_app. simpl. lia.
      * rewrite length_app in Hlt. simpl in Hlt.
        destruct (IH (fresh ++ [name]) c Hc) as [H1 H2];
          [rewrite length_app; simpl; lia|].
        rewrite length_app in H1, H2. simpl in H1, H2.
        rewrite <- app_assoc in H1, H2. simpl in H1, H2.
        split; intros ?; [apply H1 | apply H2]; lia.
    + by apply IH.
    + rewrite (Hev x eq_refl), Hw. by apply IH.
Qed.

(** X12. What the collection of [run_batch] releases, on a stream that
    raises nothing but [ResponseException] and with a credential to draw:
    the first [BATCH_SIZE] authors of the stream that are not in
    [seen_users], in the order of the stream and each as often as they
    wrote; the [None] markers, the comments without author and the
    [ResponseException]s change nothing of it. While fewer such authors
    have arrived, the collection goes on waiting. *)
Theorem batch_releases_first_unseen (e : env) (w : world) (feed : list feed_event) :
  cy_all (reddit_cycle w) ≠ [] →
  Forall (fun ev => ∀ x, ev = FeedRaise x → x = ResponseException) feed →
  (BATCH_SIZE e ≤ length (unseen_authors (seen_users w) feed) →
   released_names (collect_fresh e w feed)
   = Some (take (BATCH_SIZE e) (unseen_authors (seen_users w) feed))) ∧
  (length (unseen_authors (seen_users w) feed) < BATCH_SIZE e →
   ∃ c, collect_fresh e w feed = Blocked (unseen_authors (seen_users w) feed) c).
Proof.
  intros Hc Hfeed. unfold collect_fresh, while_fresh. cbn [length].
  destruct (Nat.ltb_spec 0 (BATCH_SIZE e)) as [Hpos|Hzero].
  - destruct (cycle_next_some _ Hc) as (x & c' & -> & E). destruct x.
    apply (stream_loop_exact e (seen_users w) feed Hfeed [] c'); [congruence | done].
  - split; [|lia]. intros _. simpl.
    by replace (BATCH_SIZE e) with 0 by lia.
Qed.

(** The witness of X12: two names are wanted, [bob] writes twice. *)
Lemma batch_releases_first_unseen_witness :
  released_names (collect_fresh (Scenario.sample_env 2) (Scenario.fresh_world 2)
    [FeedNone; Scenario.by_ Scenario.bob; FeedRaise ResponseException;
     FeedComment None; Scenario.by_ Scenario.bob; Scenario.by_ Scenario.carol])
  = Some [Scenario.bob; Scenario.bob].
Proof.
  apply (batch_releases_first_unseen (Scenario.sample_env 2) (Scenario.fresh_world 2)
    [FeedNone; Scenario.by_ Scenario.bob; FeedRaise ResponseException;
     FeedComment None; Scenario.by_ Scenario.bob; Scenario.by_ Scenario.carol]).
  - discriminate.
  - repeat constructor; intros x [= <-]; reflexivity.
  - vm_compute. lia.
Defined.

(** ** Batch mode: what is saved *)

Lemma gather_inv results all_users all_comments users comments :
  gather results all_users all_comments = Returns (users, comments) →
  users = all_users ++ returned_users results ∧
  comments = all_comments ++ returned_comments results.
Proof.
  unfold returned_users, returned_comments.
  revert all_users all_comments.
  induction results as [|[job res] results IH]; intros all_users all_comments.
  - simpl. intros [= <- <-]. by rewrite !app_nil_r.
  - destruct res as [[[row rows]|]|x]; cbn [gather omap snd concat]; [| |done].
    + intros [-> ->]%IH. simpl. by rewrite <- !app_assoc.
    + apply IH.
Qed.

Lemma returned_users_cons job res results :
  returned_users ((job, res) :: results) =
  match res with
  | Returns (Some (row, _)) => row :: returned_users results
  | _ => returned_users results
  end.
Proof. by destruct res as [[[row rows]|]|x]. Qed.

Lemma returned_comments_cons job res results :
  returned_comments ((job, res) :: results) =
  match res with
  | Returns (Some (_, rows)) => rows ++ returned_comments results
  | _ => returned_comments results
  end.
Proof. by destruct res as [[[row rows]|]|x]. Qed.

(** What the jobs of a pool leave behind: no parquet file, the stream
    cursor untouched, the seen names of before and those of the user rows
    returned, the checkpoint in step with the set; and every comment row
    returned belongs to a user row returned. *)
Lemma run_jobs_spec (e : env) (jobs : list (Z * str)) (w : world) :
  let r := run_jobs e jobs w in
  parquet_files r.2 = parquet_files w ∧
  reddit_cycle r.2 = reddit_cycle w ∧
  (∀ name, name ∈ seen_users r.2 ↔
           name ∈ seen_users w ∨ name ∈ map u_username (returned_users r.1)) ∧
  (load_seen (seen_file w) = seen_users w →
   load_seen (seen_file r.2) = seen_users r.2) ∧
  Forall (fun row => username row ∈ map u_username (returned_users r.1))
         (returned_comments r.1).
Proof.
  cbv zeta. revert w. induction jobs as [|[idx uname] rest IH]; intros w.
  - simpl. split; [done|]. split; [done|]. split; [|split].
    + intros name. split; [by left | intros [?|[]%elem_of_nil]; done].
    + done.
    + constructor.
  - cbn [run_jobs].
    pose proof (fetch_user_job_world e idx uname w) as Hw.
    destruct (fetch_user_job e (idx, uname) w) as [res w1] eqn:Ejob.
    destruct (IH w1) as (Hp & Hc & Hs & Hsync & Hrows).
    destruct (run_jobs e rest w1) as [results w2]. cbn [fst snd] in *.
    rewrite returned_users_cons, returned_comments_cons.
    destruct res as [[[row rows]|]|x].
    + apply fetch_user_job_result in Ejob as (Hu & Hr & _ & ->).
      cbn [parquet_files reddit_cycle seen_users save_seen set_seen] in *.
      split; [done|]. split; [done|]. split; [|split].
      * intros name. cbn [map].
        rewrite Hs, elem_of_union, elem_of_singleton, elem_of_cons, Hu.
        split; [intros [[->|?]|?]; auto | intros [?|[->|?]]; auto].
      * intros _. apply Hsync, load_checkpoint.
      * cbn [map]. apply Forall_app. split.
        -- eapply Forall_impl; [exact Hr|]. intros r ->. rewrite Hu.
           apply elem_of_cons. by left.
        -- eapply Forall_impl; [exact Hrows|]. intros r Hin. apply elem_of_cons. by right.
    + subst w1. done.
    + subst w1. done.
Qed.

(** X13. When [run_batch] comes to its end, it has written two parquet
    files after those that were there: the user rows under the prefix
    ["users"], and the comment rows under ["batch_"] followed by their
    number. The names in [seen_users] are then those of before and those of
    the user rows written, and every comment row written belongs to a user
    row written. *)
Theorem run_batch_saved (e : env) (w w' : world) (feed rest : list feed_event)
    (fresh : list str) :
  run_batch e w feed = (BatchSaved fresh rest, w') →
  ∃ users comments,
    parquet_files w' =
      parquet_files w ++
      [(lit "users", now e, UserRows users);
       (lit ("batch_" +:+ pretty (length comments)), now e, CommentRows comments)] ∧
    (∀ name, name ∈ seen_users w' ↔
             name ∈ seen_users w ∨ name ∈ map u_username users) ∧
    Forall (fun row => username row ∈ map u_username users) comments.
Proof.
  unfold run_batch.
  destruct (collect_fresh e w feed) as [fresh0 c rest0| |]; [|done|done].
  destruct (reddit_clients e) as [|cl cls] eqn:Ecl; [done|].
  pose proof (run_jobs_spec e
    (completion_order e (build_jobs (length (cl :: cls)) fresh0)) (set_cycle c w))
    as (Hp & _ & Hs & _ & Hrows).
  destruct (run_jobs e _ (set_cycle c w)) as [results w1]. cbn [fst snd] in *.
  destruct (gather results [] []) as [[all_users all_comments]|x] eqn:Eg; [|done].
  apply gather_inv in Eg as [-> ->]. simpl app.
  intros [= <- <- <-]. eexists _, _. unfold save_parquet.
  cbn [parquet_files seen_users]. rewrite Hp. cbn [set_cycle parquet_files].
  split; [by rewrite <- app_assoc|]. split; [apply Hs | apply Hrows].
Qed.

(** The witness of X13: [carol]'s job returns [None], [bob]'s rows are
    saved. *)
Lemma run_batch_saved_witness :
  ∃ users comments,
    parquet_files (run_batch (Scenario.sample_env 2) (Scenario.fresh_world 2)
                     [Scenario.by_ Scenario.carol; Scenario.by_ Scenario.bob]).2 =
      parquet_files (Scenario.fresh_world 2) ++
      [(lit "users", 1700000000%Z, UserRows users);
       (lit ("batch_" +:+ pretty (length comments)), 1700000000%Z,
        CommentRows comments)].
Proof.
  destruct (run_batch_saved (Scenario.sample_env 2) (Scenario.fresh_world 2)
              (run_batch (Scenario.sample_env 2) (Scenario.fresh_world 2)
                 [Scenario.by_ Scenario.carol; Scenario.by_ Scenario.bob]).2
              [Scenario.by_ Scenario.carol; Scenario.by_ Scenario.bob] []
              [Scenario.carol; Scenario.bob] eq_refl)
    as (users & comments & H & _).
  exists users, comments. exact H.
Defined.

(** ** Batch mode: which names are marked *)

Lemma zip_cycle_snd {A B} (c : cycle_state A) (l : list B) (p : A * B) :
  p ∈ zip_cycle c l → p.2 ∈ l.
Proof.
  revert c. induction l as [|y l IH]; intros c; cbn [zip_cycle].
  - destruct (cycle_next c) as [[x c']|]; by intros ?%elem_of_nil.
  - destruct (cycle_next c) as [[x c']|]; [|by intros ?%elem_of_nil].
    intros [->|Hin]%elem_of_cons; apply elem_of_cons; [by left|]. right. by eapply IH.
Qed.

(** The names that the collection releases are names under collection or
    authors of the stream that are not in [seen]. *)
Lemma stream_loop_names (e : env) (seen : gset str) (feed : list feed_event) :
  ∀ fresh c out c' rest,
    stream_loop e seen fresh c feed = Released out c' rest →
    ∀ n, n ∈ out → n ∈ fresh ∨ n ∈ unseen_authors seen feed.
Proof.
  induction feed as [|ev feed IH]; intros fresh c out c' rest; [done|].
  assert (∀ fresh0 c0,
            while_fresh e fresh0 c0 feed
              (fun c1 => stream_loop e seen fresh0 c1 feed) = Released out c' rest →
            ∀ n, n ∈ out → n ∈ fresh0 ∨ n ∈ unseen_authors seen feed) as Hwhile.
  { intros fresh0 c0. unfold while_fresh. destruct (length fresh0 <? BATCH_SIZE e).
    - destruct (cycle_next c0) as [[? c1]|]; [|done]. apply IH.
    - intros [= <- _ _] n Hn. by left. }
  destruct ev as [|[name|]|x]; cbn [stream_loop unseen_authors].
  - apply Hwhile.
  - destruct (bool_decide_reflect (name ∉ seen)) as [Hn|Hn]; simpl; [|by apply IH].
    intros Hr n Hin.
    assert (n ∈ fresh ++ [name] ∨ n ∈ unseen_authors seen feed) as [H|H].
    { destruct (BATCH_SIZE e <=? length (fresh ++ [name])).
      - by eapply Hwhile.
      - by eapply IH. }
    + apply elem_of_app in H as [H|H]; [by left|]. right.
      apply list_elem_of_singleton in H as ->. apply elem_of_cons. by left.
    + right. apply elem_of_cons. by right.
  - apply IH.
  - destruct x; try done; apply Hwhile.
Qed.

Lemma collect_fresh_names (e : env) (w : world) (feed : list feed_event) out c rest :
  collect_fresh e w feed = Released out c rest →
  ∀ n, n ∈ out → n ∈ unseen_authors (seen_users w) feed.
Proof.
  unfold collect_fresh, while_fresh. destruct (length (@nil str) <? BATCH_SIZE e).
  - destruct (cycle_next (reddit_cycle w)) as [[? c1]|]; [|done].
    intros Hr n Hn. by destruct (stream_loop_names _ _ _ _ _ _ _ _ Hr n Hn) as [?%elem_of_nil|].
  - by intros [= <- _ _] n ?%elem_of_nil.
Qed.

Lemma elem_of_returned_users results (row : user_row) :
  row ∈ returned_users results ↔
  ∃ job rows, (job, Returns (Some (row, rows))) ∈ results.
Proof.
  unfold returned_users. rewrite list_elem_of_omap. split.
  - intros ([job res] & Hin & Hr). destruct res as [[[r rs]|]|]; simpl in Hr; try done.
    injection Hr as ->. eauto.
  - intros (job & rows & Hin). by exists (job, Returns (Some (row, rows))).
Qed.

Lemma fetch_user_job_outcome_world (e : env) (job : Z * str) (w1 w2 : world) :
  (fetch_user_job e job w1).1 = (fetch_user_job e job w2).1.
Proof.
  destruct job as [idx uname]. unfold fetch_user_job.
  destruct (py_getitem (reddit_clients e) (idx - 1)) as [cl|x]; [|done].
  destruct (comments_new (api e cl uname)) as [listing|x];
    [|by destruct (is_exception x)].
  by destruct (about (api e cl uname)).
Qed.

Lemma run_jobs_outcomes (e : env) (jobs : list (Z * str)) (w w0 : world) :
  Forall2 (fun job r => r = (job, (fetch_user_job e job w0).1)) jobs (run_jobs e jobs w).1.
Proof.
  revert w. induction jobs as [|job rest IH]; intros w; [constructor|].
  cbn [run_jobs]. pose proof (fetch_user_job_outcome_world e job w w0) as Hres.
  destruct (fetch_user_job e job w) as [res w1]. specialize (IH w1).
  destruct (run_jobs e rest w1) as [results w2]. simpl in *.
  constructor; [by rewrite Hres | done].
Qed.

(** The results of the pool are the outcomes of its jobs. *)
Lemma elem_of_run_jobs (e : env) (jobs : list (Z * str)) (w w0 : world) job res :
  (job, res) ∈ (run_jobs e jobs w).1 ↔
  job ∈ jobs ∧ res = (fetch_user_job e job w0).1.
Proof.
  pose proof (run_jobs_outcomes e jobs w w0) as Hout. split.
  - intros [i Hi]%list_elem_of_lookup.
    destruct (Forall2_lookup_r _ _ _ _ _ Hout Hi) as (j & Hj & Hr).
    injection Hr as -> ->. split; [by eapply list_elem_of_lookup_2 | done].
  - intros [[i Hi]%list_elem_of_lookup ->].
    destruct (Forall2_lookup_l _ _ _ _ _ Hout Hi) as (r & Hr & ->).
    by eapply list_elem_of_lookup_2.
Qed.

(** X14. Which names [run_batch] marks, whatever the stream and however
    the batch ends, when the pool completes no other jobs than those
    submitted. It never removes a name from [seen_users]. A name that it
    adds is a name that the collection released, hence the author of a
    comment of the stream who was not in [seen_users]. And the name of
    every job that returned rows is in [seen_users] afterwards, also when
    another job ends the batch with an exception and the rows are never
    written. *)
Theorem run_batch_marks (e : env) (w : world) (feed : list feed_event) :
  (∀ jobs job, job ∈ completion_order e jobs → job ∈ jobs) →
  let w' := (run_batch e w feed).2 in
  seen_users w ⊆ seen_users w' ∧
  (∀ name, name ∈ seen_users w' → name ∉ seen_users w →
     name ∈ unseen_authors (seen_users w) feed ∧
     ∃ fresh c rest, collect_fresh e w feed = Released fresh c rest ∧ name ∈ fresh) ∧
  (∀ fresh c rest job row rows,
     collect_fresh e w feed = Released fresh c rest → reddit_clients e ≠ [] →
     job ∈ completion_order e (build_jobs (length (reddit_clients e)) fresh) →
     (fetch_user_job e job w).1 = Returns (Some (row, rows)) →
     job.2 ∈ seen_users w').
Proof.
  intros Hco. cbv zeta. unfold run_batch.
  destruct (collect_fresh e w feed) as [fresh0 c0 rest0|fresh0 c0|x c0] eqn:Ec;
    cbn [snd set_cycle seen_users]; [|by repeat split..].
  destruct (reddit_clients e) as [|cl cls] eqn:Ecl.
  { cbn [snd set_cycle seen_users]. by repeat split. }
  set (jobs := completion_order e (build_jobs (length (cl :: cls)) fresh0)).
  pose proof (run_jobs_spec e jobs (set_cycle c0 w)) as (_ & _ & Hs & _).
  pose proof (fun job res => elem_of_run_jobs e jobs (set_cycle c0 w) w job res) as Hres.
  destruct (run_jobs e jobs (set_cycle c0 w)) as [results w1]. cbn [fst snd] in Hs, Hres.
  cbn [set_cycle seen_users] in Hs.
  assert (seen_users
            (match gather results [] [] with
             | Returns (all_users, all_comments) =>
                 (BatchSaved fresh0 rest0,
                  save_parquet e (CommentRows all_comments)
                    (lit ("batch_" +:+ pretty (length all_comments)))
                    (save_parquet e (UserRows all_users) (lit "users") w1))
             | Raises x => (BatchCrashed x, w1)
             end).2 = seen_users w1) as ->.
  { by destruct (gather results [] []) as [[? ?]|?]. }
  split; [|split].
  - intros name Hin. apply Hs. by left.
  - intros name [Hin|Hin]%Hs Hnew; [done|].
    apply list_elem_of_fmap in Hin as (row & -> & Hrow).
    apply elem_of_returned_users in Hrow as ([idx uname] & rows & Hin).
    apply Hres in Hin as [Hjob Hout].
    destruct (fetch_user_job e (idx, uname) w) as [res w2] eqn:Ejob. cbn [fst] in Hout.
    subst res. apply fetch_user_job_result in Ejob as (-> & _).
    apply Hco, zip_cycle_snd in Hjob. cbn [snd] in Hjob.
    split; [by eapply collect_fresh_names|]. by exists fresh0, c0, rest0.
  - intros fresh c rest [idx uname] row rows [= <- <- <-] _ Hjob Hout. cbn [snd].
    apply Hs. right. apply list_elem_of_fmap. exists row.
    destruct (fetch_user_job e (idx, uname) w) as [res w2] eqn:Ejob. cbn [fst] in Hout.
    subst res. pose proof (fetch_user_job_result _ _ _ _ _ _ _ Ejob) as (Hu & _).
    split; [by rewrite Hu|].
    apply elem_of_returned_users. exists (idx, uname), rows.
    apply Hres. split; [done|]. by rewrite Ejob.
Qed.

(** The witness of X14: [alice] and [bob] in one batch. The job of
    [alice] ends the batch with an exception; [bob], whose job returned
    rows, is marked. *)
Lemma run_batch_marks_witness :
  Scenario.bob ∈
    seen_users (run_batch (Scenario.sample_env 2) (Scenario.fresh_world 2)
                  [Scenario.by_ Scenario.alice; Scenario.by_ Scenario.bob]).2.
Proof.
  destruct (run_batch_marks (Scenario.sample_env 2) (Scenario.fresh_world 2)
              [Scenario.by_ Scenario.alice; Scenario.by_ Scenario.bob])
    as (_ & _ & H).
  - intros jobs job Hjob. exact Hjob.
  - eapply (H [Scenario.alice; Scenario.bob] _ [] (2%Z, Scenario.bob)).
    + reflexivity.
    + discriminate.
    + apply elem_of_cons. right. apply elem_of_cons. by left.
    + reflexivity.
Defined.

(** ** Single mode *)

Lemma written_users_app a b : written_users (a ++ b) = written_users a ++ written_users b.
Proof. unfold written_users. apply flat_map_app. Qed.

(** X15. In single mode no author is fetched twice. However the loop
    ends, the parquet files it has written come after those that were
    there; among them no two user rows are for the same name; every name
    with a user row was not in [seen_users] at the start and is in it at
    the end; no name has left [seen_users]; and the checkpoint file is in
    step with [seen_users] when it was so at the start. *)
Theorem single_loop_no_author_twice (e : env) (cyc : cycle_state (Z * client))
    (w : world) (feed : list feed_event) :
  let w' := (single_loop e cyc w feed).2 in
  ∃ new,
    parquet_files w' = parquet_files w ++ new ∧
    NoDup (written_users new) ∧
    Forall (fun n => (n ∉ seen_users w) ∧ n ∈ seen_users w') (written_users new) ∧
    seen_users w ⊆ seen_users w' ∧
    (load_seen (seen_file w) = seen_users w →
     load_seen (seen_file w') = seen_users w').
Proof.
  cbv zeta. revert cyc w. induction feed as [|ev feed IH]; intros cyc w.
  - exists []. simpl. rewrite app_nil_r. repeat split; try done; constructor.
  - destruct ev as [|[uname|]|x]; cbn [single_loop].
    + apply IH.
    + destruct (bool_decide_reflect (uname ∈ seen_users w)) as [Hin|Hnew]; [apply IH|].
      destruct (cycle_next cyc) as [[[client_idx cl] cyc']|].
      2:{ exists []. simpl. rewrite app_nil_r. repeat split; try done; constructor. }
      set (w1 := save_seen (set_seen (fun s => {[uname]} ∪ s) w)).
      assert (seen_users w ⊆ seen_users w1) as Hsub1.
      { intros n Hn. apply elem_of_union. by right. }
      assert (uname ∈ seen_users w1) as Hu1.
      { apply elem_of_union. left. by apply elem_of_singleton. }
      assert (load_seen (seen_file w1) = seen_users w1) as Hsync1 by apply load_checkpoint.
      destruct (about (api e cl uname)) as [p|x].
      2:{ exists []. simpl. rewrite app_nil_r. repeat split; try done; constructor. }
      match goal with
      | |- context [UserRows [?r]] => set (row := r)
      end.
      destruct (comments_new (api e cl uname)) as [listing|x].
      2:{ exists [(lit "users", now e, UserRows [row])]. cbn [snd].
          split; [done|]. split; [|split; [|done]].
          - repeat constructor. apply not_elem_of_nil.
          - repeat constructor; done. }
      match goal with
      | |- context [single_loop e cyc' ?w3 feed] =>
          destruct (IH cyc' w3) as (new & Hp & Hnd & Hall & Hsub & Hsync);
          set (w' := (single_loop e cyc' w3 feed).2) in *
      end.
      cbn [save_parquet parquet_files seen_users seen_file] in *.
      exists ([(lit "users", now e, UserRows [row]);
               (uname, now e,
                CommentRows (process_comments e uname (take MAX_COMMENTS listing)))]
              ++ new).
      split; [by rewrite Hp, <- !app_assoc|].
      rewrite written_users_app. change (written_users _ ++ written_users new)
        with (uname :: written_users new).
      rewrite Forall_forall in Hall.
      split; [|split; [|split]].
      * apply NoDup_cons. split; [|done]. intros Hin. by destruct (Hall _ Hin).
      * apply Forall_cons. split; [split; [done | by apply Hsub]|].
        apply Forall_forall. intros n Hn. destruct (Hall _ Hn) as [Hn1 Hn2].
        split; [|done]. intros Hw. apply Hn1. by apply Hsub1.
      * by etrans.
      * intros _. by apply Hsync.
    + apply IH.
    + exists []. simpl. rewrite app_nil_r. repeat split; try done; constructor.
Qed.

Lemma py_enumerate_lookup {A} (start : Z) (l : list A) (m : nat) :
  py_enumerate start l !! m = (fun x => ((start + Z.of_nat m)%Z, x)) <$> l !! m.
Proof.
  revert start m. induction l as [|x l IH]; intros start [|m]; simpl; try done.
  - do 2 f_equal. lia.
  - rewrite IH. destruct (l !! m); simpl; [|done]. do 2 f_equal. lia.
Qed.

Lemma py_enumerate_length {A} (start : Z) (l : list A) :
  length (py_enumerate start l) = length l.
Proof. revert start. induction l as [|x l IH]; intros start; simpl; [done|]. by rewrite IH. Qed.

Lemma single_loop_rotation (e : env) (all : list (Z * client)) (feed : list feed_event) :
  all = py_enumerate 1 (reddit_clients e) → all ≠ [] →
  ∀ j0 w, j0 ≤ length all →
    ∃ new,
      parquet_files (single_loop e {| cy_rest := drop j0 all; cy_all := all |} w feed).2
      = parquet_files w ++ new ∧
      ∀ j row, written_rows new !! j = Some row →
        u_client_idx row = Some (Z.of_nat ((j0 + j) mod length all) + 1)%Z.
Proof.
  intros Hall Hne. induction feed as [|ev feed IH]; intros j0 w Hj0.
  - exists []. simpl. by rewrite app_nil_r.
  - destruct ev as [|[uname|]|x]; cbn [single_loop].
    + by apply IH.
    + destruct (bool_decide (uname ∈ seen_users w)); [by apply IH|].
      destruct (cycle_next_drop all j0 Hne Hj0) as ([client_idx cl] & j' & -> & Hx & Hj' & Hmod).
      assert (client_idx = (Z.of_nat (j0 mod length all) + 1)%Z) as Hidx.
      { rewrite Hall, py_enumerate_lookup in Hx.
        destruct (reddit_clients e !! (j0 mod length (py_enumerate 1 (reddit_clients e))));
          [|done].
        injection Hx as <- _. rewrite <- Hall. lia. }
      destruct (about (api e cl uname)) as [p|x].
      2:{ exists []. simpl. by rewrite app_nil_r. }
      match goal with
      | |- context [UserRows [?r]] => set (row := r)
      end.
      destruct (comments_new (api e cl uname)) as [listing|x].
      2:{ exists [(lit "users", now e, UserRows [row])]. split; [done|].
          intros [|j] r; [|done]. intros [= <-]. by rewrite Nat.add_0_r, <- Hidx. }
      match goal with
      | |- context [single_loop e _ ?w3 feed] =>
          destruct (IH j' w3 Hj') as (new & Hp & Hrows)
      end.
      cbn [save_parquet parquet_files] in Hp.
      exists ([(lit "users", now e, UserRows [row]);
               (uname, now e,
                CommentRows (process_comments e uname (take MAX_COMMENTS listing)))]
              ++ new).
      split; [by rewrite Hp, <- !app_assoc|].
      intros [|j] r.
      * intros [= <-]. by rewrite Nat.add_0_r, <- Hidx.
      * intros Hr. rewrite <- Hmod. by apply Hrows.
    + by apply IH.
    + exists []. simpl. by rewrite app_nil_r.
Qed.

(** X16. Single mode takes the credentials in turn: of the user rows that
    [run_single] writes, the [j]-th (counting from 0) records the
    credential index [(j mod N) + 1], for [N] credentials; a row is written
    only when there is a credential. Without any credential [run_single]
    writes nothing: it ends at once with an [IndexError] and leaves the
    process state as it was. *)
Theorem run_single_rotation (e : env) (w : world) (feed : list feed_event) :
  ∃ new,
    parquet_files (run_single e w feed).2 = parquet_files w ++ new ∧
    (∀ j row, written_rows new !! j = Some row →
       reddit_clients e ≠ [] ∧
       u_client_idx row = Some (Z.of_nat (j mod length (reddit_clients e)) + 1)%Z) ∧
    (reddit_clients e = [] →
       new = [] ∧ run_single e w feed = (Crashed IndexError, w)).
Proof.
  unfold run_single, py_cycle.
  destruct (reddit_clients e) as [|cl cls] eqn:Ecl.
  - exists []. simpl. by rewrite app_nil_r.
  - change (py_getitem (cl :: cls) 0) with (Returns (A:=client) cl). cbv iota.
    rewrite <- Ecl.
    destruct (single_loop_rotation e (py_enumerate 1 (reddit_clients e)) feed eq_refl)
      with (j0 := 0) (w := w) as (new & Hp & Hrows).
    + by rewrite Ecl.
    + lia.
    + rewrite drop_0 in Hp. exists new. split; [done|]. split.
      * intros j row Hj. split; [by rewrite Ecl|].
        rewrite (Hrows j row Hj), py_enumerate_length. done.
      * by rewrite Ecl.
Qed.

(** ** The merge script, when there is an [id] column *)

Lemma merge_with_inputs subset listing :
  merge_with subset listing =
  match merge_inputs listing with
  | [] => Raises (SystemExit 1)
  | _ :: _ => drop_duplicates subset (pd_concat (map snd (merge_inputs listing)))
  end.
Proof. reflexivity. Qed.

Lemma drop_duplicates_id df :
  drop_duplicates [lit "id"] df =
  if decide (lit "id" ∈ columns df)
  then Returns {| columns := columns df; rows := dedup_go [lit "id"] [] (rows df) |}
  else Raises (KeyError [lit "id"]).
Proof.
  unfold drop_duplicates. cbn [filter list_filter].
  destruct (decide (lit "id" ∈ columns df)) as [Hin|Hn].
  - by rewrite decide_False by auto.
  - by rewrite decide_True.
Qed.



Lemma dedup_go_sublist subset keys rs : dedup_go subset keys rs `sublist_of` rs.
Proof.
  revert keys. induction rs as [|r rs IH]; intros keys; [done|].
  cbn [dedup_go]. destruct (bool_decide _).
  - apply sublist_cons, IH.
  - apply sublist_skip, IH.
Qed.

Lemma row_key_single (c : str) (l : list (gmap str cell)) :
  map (row_key [c]) l = map (fun x => [x]) (map (fun r => na_key r c) l).
Proof. by rewrite map_map. Qed.

(** X18. What the merged table holds, when the script writes one and the
    ids of the files read are text or missing. Its rows are rows of the
    files read, in the order of reading; no two of them have the same
    [id]; every [id] of the input is the [id] of one of them; and a row
    that no earlier row shares its [id] with is kept (first seen wins).
    A missing id is one id: a row with a null [id] and a row of a file
    without an [id] column have the same one, so only the first of all
    such rows is kept. *)
Theorem merge_all_files_rows (listing : list (str * frame)) (df : frame) :
  merge_all_files listing = Returns df →
  let all := flat_map rows (map snd (merge_inputs listing)) in
  forallb id_is_text all = true →
  rows df `sublist_of` all ∧
  NoDup (map (fun r => na_key r (lit "id")) (rows df)) ∧
  (∀ r, r ∈ all → ∃ r', r' ∈ rows df ∧ na_key r' (lit "id") = na_key r (lit "id")) ∧
  (∀ l1 r l2, all = l1 ++ r :: l2 →
     na_key r (lit "id") ∉ map (fun x => na_key x (lit "id")) l1 → r ∈ rows df) ∧
  (∀ r r', r ∈ rows df → r' ∈ rows df →
     na_key r (lit "id") = None → na_key r' (lit "id") = None → r = r').
Proof.
  unfold merge_all_files. rewrite merge_with_inputs.
  destruct (merge_inputs listing) as [|f files] eqn:E; [done|].
  rewrite drop_duplicates_id. destruct (decide _) as [Hin|Hn]; [|done].
  intros Hdf. cbv zeta. intros _.
  assert (rows df = dedup_go [lit "id"] [] (flat_map rows (map snd (f :: files)))) as ->.
  { injection Hdf as <-. reflexivity. }
  clear Hdf. remember (flat_map rows (map snd (f :: files))) as all eqn:Eall. clear Eall.
  assert (NoDup (map (fun r => na_key r (lit "id")) (dedup_go [lit "id"] [] all))) as Hnd.
  { destruct (dedup_go_distinct [lit "id"] [] all) as [_ Hnd].
    rewrite row_key_single in Hnd. by apply NoDup_fmap_1 in Hnd. }
  split; [apply dedup_go_sublist|]. split; [done|]. split; [|split].
  - intros r Hr. pose proof (dedup_go_covers [lit "id"] [] all r Hr) as Hc.
    rewrite app_nil_r in Hc. apply list_elem_of_fmap in Hc as (r' & Hk & Hr').
    exists r'. split; [done|]. by injection Hk.
  - intros l1 r l2 -> Hfirst. apply dedup_go_keeps_first; [apply not_elem_of_nil|].
    rewrite row_key_single. intros (k & Hk & Hin')%list_elem_of_fmap.
    apply Hfirst. simpl in Hk. by injection Hk as ->.
  - intros r r' Hr Hr' Hk Hk'.
    apply list_elem_of_lookup in Hr as [i Hi]. apply list_elem_of_lookup in Hr' as [j Hj].
    assert (i = j) as ->.
    { eapply NoDup_lookup; [exact Hnd| |].
      - rewrite list_lookup_fmap, Hi. simpl. by rewrite Hk.
      - rewrite list_lookup_fmap, Hj. simpl. by rewrite Hk'. }
    congruence.
Qed.

(** The witness of X18: two parquet files and a text file; the second
    row with id [c1] and the second one with [c2] are dropped. *)
Lemma merge_all_files_rows_witness :
  ∃ df, merge_all_files Frames.listing_ab = Returns df ∧
        map (fun r => r !! lit "id") (rows df)
        = [Some (CStr (lit "c1")); Some (CStr (lit "c2"));
           Some (CStr (lit "c3")); Some (CStr (lit "c4"))] ∧
        NoDup (map (fun r => na_key r (lit "id")) (rows df)).
Proof.
  eexists. split; [reflexivity|]. split; [reflexivity|].
  eapply (merge_all_files_rows Frames.listing_ab); reflexivity.
Defined.

(** A row of a file without an [id] column, then a row with a null [id]:
    the second one is dropped. *)
Example merge_missing_ids :
  ∃ df, merge_all_files Frames.listing_pq = Returns df ∧
        map (fun r => r !! lit "body") (rows df)
        = [Some (CStr (lit "p")); Some (CStr (lit "r"))].
Proof. eexists. split; [reflexivity|]. vm_compute. reflexivity. Qed.

(** ** [count_rows_by_prefix] *)

Lemma users_not_comments fn :
  startswith USERS_PARQUET_PREFIX fn = true →
  startswith COMMENTS_PARQUET_PREFIX fn = false.
Proof.
  destruct fn as [|c r]; [done|]. unfold USERS_PARQUET_PREFIX, COMMENTS_PARQUET_PREFIX.
  lits. cbn [startswith]. destruct (N.eqb_spec 117 c) as [<-|]; [done|]. done.
Qed.

Lemma count_files_sums (files : list (str * nat)) (u c : nat) :
  count_files files u c =
  (u + sum_list_with snd (filter (fun f => endswith (lit ".parquet") f.1
                                   && startswith USERS_PARQUET_PREFIX f.1) files),
   c + sum_list_with snd (filter (fun f => endswith (lit ".parquet") f.1
                                   && startswith COMMENTS_PARQUET_PREFIX f.1) files)).
Proof.
  revert u c. induction files as [|[fn n] files IH]; intros u c.
  - simpl. f_equal; lia.
  - cbn [count_files]. rewrite !filter_cons. cbn [fst].
    destruct (endswith (lit ".parquet") fn); cbn [negb andb].
    + destruct (startswith USERS_PARQUET_PREFIX fn) eqn:Eu.
      * rewrite (users_not_comments fn Eu), IH.
        repeat case_decide; try done. simpl. f_equal; lia.
      * destruct (startswith COMMENTS_PARQUET_PREFIX fn).
        -- rewrite IH. repeat case_decide; try done. simpl. f_equal; lia.
        -- rewrite IH. repeat case_decide; done.
    + rewrite IH. repeat case_decide; done.
Qed.

Lemma count_dirs_sums listdir (data_dirs : list str) (u c : nat) :
  count_dirs listdir data_dirs u c =
  (u + sum_list_with snd (filter (fun f => endswith (lit ".parquet") f.1
                                   && startswith USERS_PARQUET_PREFIX f.1)
                            (concat (omap listdir data_dirs))),
   c + sum_list_with snd (filter (fun f => endswith (lit ".parquet") f.1
                                   && startswith COMMENTS_PARQUET_PREFIX f.1)
                            (concat (omap listdir data_dirs)))).
Proof.
  revert u c. induction data_dirs as [|d dirs IH]; intros u c.
  - simpl. f_equal; lia.
  - cbn [count_dirs omap list_omap]. destruct (listdir d) as [files|]; [|apply IH].
    rewrite count_files_sums, IH. cbn [concat].
    rewrite !filter_app, !sum_list_with_app. f_equal; lia.
Qed.

(** X20. [count_rows_by_prefix] returns, over the files of the
    directories that exist, the sum of the row counts of the parquet files
    whose name begins with ["users_"] and the sum for those whose name
    begins with ["comments_"]; every other file adds nothing, and no file
    adds to both. Counting over two lists of directories one after the
    other adds up. *)
Theorem count_rows_by_prefix_sums (listdir : str → option (list (str * nat)))
    (data_dirs more_dirs : list str) :
  let files := concat (omap listdir data_dirs) in
  count_rows_by_prefix listdir data_dirs =
    (sum_list_with snd (filter (fun f => endswith (lit ".parquet") f.1
                                  && startswith USERS_PARQUET_PREFIX f.1) files),
     sum_list_with snd (filter (fun f => endswith (lit ".parquet") f.1
                                  && startswith COMMENTS_PARQUET_PREFIX f.1) files)) ∧
  (∀ fn, startswith USERS_PARQUET_PREFIX fn && startswith COMMENTS_PARQUET_PREFIX fn
         = false) ∧
  count_rows_by_prefix listdir (data_dirs ++ more_dirs) =
    ((count_rows_by_prefix listdir data_dirs).1 + (count_rows_by_prefix listdir more_dirs).1,
     (count_rows_by_prefix listdir data_dirs).2 + (count_rows_by_prefix listdir more_dirs).2).
Proof.
  cbv zeta. unfold count_rows_by_prefix. rewrite !count_dirs_sums. cbn [fst snd].
  split; [done|]. split.
  - intros fn. destruct (startswith USERS_PARQUET_PREFIX fn) eqn:E; [|done].
    by rewrite (users_not_comments fn E).
  - rewrite omap_app, concat_app, !filter_app, !sum_list_with_app. done.
Qed.

(** ** [split_by_language] *)

(** X21. [split_by_language] ends with [ValueError] exactly when the
    frame has no column [language]. Otherwise every row goes to exactly one
    of the two frames written: the rows whose language is ["en"] to the
    first, all others (also those with a null or missing language) to the
    second, each in the order of the input and with the columns of the
    input; no row is lost and none is written twice. *)
Theorem split_by_language_partition (df : frame) :
  match split_by_language df with
  | Raises x => x = ValueError ∧ lit "language" ∉ columns df
  | Returns (en, other) =>
      lit "language" ∈ columns df ∧
      columns en = columns df ∧ columns other = columns df ∧
      rows en ++ rows other ≡ₚ rows df ∧
      length (rows en) + length (rows other) = length (rows df) ∧
      Forall language_is_en (rows en) ∧
      Forall (fun r => ¬ language_is_en r) (rows other) ∧
      rows en `sublist_of` rows df ∧ rows other `sublist_of` rows df
  end.
Proof.
  unfold split_by_language.
  destruct (bool_decide_reflect (lit "language" ∈ columns df)) as [Hin|Hn]; [|done].
  cbn [columns rows].
  pose proof (filter_app_complement language_is_en (rows df)) as Hperm.
  repeat split; try done.
  - rewrite <- length_app. by rewrite Hperm.
  - apply Forall_forall. by intros r [? _]%list_elem_of_filter.
  - apply Forall_forall. by intros r [? _]%list_elem_of_filter.
  - apply sublist_filter.
  - apply sublist_filter.
Qed.

(** ** [parquet_to_json] *)

Lemma py_slice_chunk {A} (l : list A) (a c : nat) :
  py_slice l (Z.of_nat a) (Z.of_nat a + Z.of_nat c) = take c (drop a l).
Proof.
  unfold py_slice.
  destruct (Z.ltb_spec (Z.of_nat a) 0); [lia|].
  destruct (Z.ltb_spec (Z.of_nat a + Z.of_nat c) 0); [lia|].
  rewrite take_drop_commute.
  destruct (Z.min_spec (Z.of_nat a) (Z.of_nat (length l))) as [[Ha ->]|[Ha ->]];
    destruct (Z.min_spec (Z.of_nat a + Z.of_nat c) (Z.of_nat (length l)))
      as [[Hb ->]|[Hb ->]]; try lia.
  - rewrite Nat2Z.id. do 2 f_equal. lia.
  - rewrite !Nat2Z.id. f_equal. rewrite !take_ge by lia. done.
  - rewrite !Nat2Z.id. rewrite !drop_ge; [done| |]; rewrite length_take; lia.
Qed.

Lemma chunks_concat {A} (c n : nat) (l : list A) :
  length l ≤ n * c →
  concat (map (fun k => take c (drop (k * c) l)) (seq 0 n)) = l.
Proof.
  revert l. induction n as [|n IH]; intros l Hl.
  - destruct l; [done | simpl in Hl; lia].
  - cbn [seq map concat]. rewrite <- seq_shift, map_map. simpl.
    rewrite drop_0. etrans; [|apply (take_drop c l)]. f_equal.
    etrans; [|apply (IH (drop c l)); rewrite length_drop; lia].
    f_equal. apply map_ext. intros k. by rewrite drop_drop.
Qed.

Lemma serialize_chunk_concat {record} (dumps : record → list N) (chunks : list (list record)) :
  concat (map (serialize_chunk dumps) chunks) = serialize_chunk dumps (concat chunks).
Proof.
  unfold serialize_chunk. induction chunks as [|ch chunks IH]; [done|].
  cbn [map concat]. by rewrite IH, map_app, concat_app.
Qed.

(** X22. Chunking does not show in the output of [parquet_to_json]: with
    at least one worker and a positive chunk size, the file holds the
    serialized records of the whole frame, one line each, in the order of
    the frame, whatever the chunk size. A chunk size of zero ends in
    [ValueError]; a negative one writes an empty file. *)
Theorem parquet_to_json_chunks {record : Type} (dumps : record → list N)
    (df : list record) (chunk_size workers : Z) :
  (0 < workers)%Z →
  ((0 < chunk_size)%Z →
   parquet_to_json dumps df chunk_size workers = Returns (serialize_chunk dumps df)) ∧
  (chunk_size = 0%Z → parquet_to_json dumps df chunk_size workers = Raises ValueError) ∧
  ((chunk_size < 0)%Z → parquet_to_json dumps df chunk_size workers = Returns []).
Proof.
  intros Hw. unfold parquet_to_json, py_range_step.
  destruct (Z.leb_spec workers 0); [lia|]. split; [|split].
  - intros Hc. destruct (Z.eqb_spec chunk_size 0); [lia|].
    destruct (Z.ltb_spec 0 chunk_size); [|lia].
    set (c := Z.to_nat chunk_size).
    assert (chunk_size = Z.of_nat c) as Ec by (unfold c; lia).
    assert (0 < c) as Hcpos by lia.
    set (cnt := Z.to_nat (if (0 <? Z.of_nat (length df))%Z
                          then (Z.of_nat (length df) - 0 - 1) / chunk_size + 1 else 0)%Z).
    assert (length df ≤ cnt * c) as Hn.
    { unfold cnt. destruct (Z.ltb_spec 0 (Z.of_nat (length df))) as [Hpos|]; [|lia].
      pose proof (Z.div_mod (Z.of_nat (length df) - 0 - 1) chunk_size ltac:(lia)) as Hd.
      pose proof (Z.mod_pos_bound (Z.of_nat (length df) - 0 - 1) chunk_size Hc) as Hm.
      pose proof (Z.div_pos (Z.of_nat (length df) - 0 - 1) chunk_size ltac:(lia) Hc).
      nia. }
    f_equal. rewrite map_map.
    etrans; [|apply (f_equal (serialize_chunk dumps) (chunks_concat c cnt df Hn))].
    rewrite <- serialize_chunk_concat, map_map.
    f_equal. apply map_ext. intros k. f_equal.
    rewrite Ec. replace (0 + Z.of_nat k * Z.of_nat c)%Z with (Z.of_nat (k * c)) by lia.
    apply py_slice_chunk.
  - intros ->. done.
  - intros Hc. destruct (Z.eqb_spec chunk_size 0); [lia|].
    destruct (Z.ltb_spec 0 chunk_size); [lia|].
    destruct (Z.ltb_spec (Z.of_nat (length df)) 0); [lia|]. done.
Qed.

(** The witness of X22: five records in chunks of two. *)
Lemma parquet_to_json_chunks_witness :
  parquet_to_json (fun n : N => [n]) [97; 98; 99; 100; 101]%N 2 4
  = Returns [97; 10; 98; 10; 99; 10; 100; 10; 101; 10]%N.
Proof.
  apply (parquet_to_json_chunks (fun n : N => [n]) [97; 98; 99; 100; 101]%N 2 4); lia.
Defined.

(** ** How [run_batch] ends *)

Lemma gather_returns_inv results all_users all_comments r :
  gather results all_users all_comments = Returns r →
  ∀ job x, (job, Raises x) ∉ results.
Proof.
  revert all_users all_comments.
  induction results as [|[job res] results IH]; intros all_users all_comments Hg j x Hin.
  - by apply elem_of_nil in Hin.
  - apply elem_of_cons in Hin as [[= <- <-]|Hin]; [done|].
    destruct res as [[[row rows]|]|y]; cbn [gather] in Hg; [| |done];
      by eapply IH.
Qed.

(** X24. How [run_batch] ends. It waits only when the collection waits.
    When it comes to its end, the collection has released its names,
    exactly [BATCH_SIZE] of them and none in [seen_users], there is a
    credential, and none of the jobs ended with an exception. And an
    exception that leaves one job ends the whole batch: whenever a job of
    the pool ends with an exception, [run_batch] ends with an exception
    and writes no parquet file. *)
Theorem run_batch_outcome (e : env) (w : world) (feed : list feed_event) :
  match (run_batch e w feed).1 with
  | BatchWaiting => ∃ fresh c, collect_fresh e w feed = Blocked fresh c
  | BatchSaved fresh rest =>
      (∃ c, collect_fresh e w feed = Released fresh c rest) ∧
      length fresh = BATCH_SIZE e ∧
      Forall (fun n => n ∉ seen_users w) fresh ∧
      reddit_clients e ≠ [] ∧
      ∀ job, job ∈ completion_order e (build_jobs (length (reddit_clients e)) fresh) →
             ∀ x, (fetch_user_job e job w).1 ≠ Raises x
  | BatchCrashed _ => True
  end ∧
  (∀ fresh c rest job x,
     collect_fresh e w feed = Released fresh c rest →
     job ∈ completion_order e (build_jobs (length (reddit_clients e)) fresh) →
     (fetch_user_job e job w).1 = Raises x →
     (∃ y, (run_batch e w feed).1 = BatchCrashed y) ∧
     parquet_files (run_batch e w feed).2 = parquet_files w).
Proof.
  unfold run_batch.
  destruct (collect_fresh e w feed) as [fresh c rest|fresh c|x c] eqn:Ec; cbn [fst];
    [|split; [by eauto | done]..].
  destruct (reddit_clients e) as [|cl cls] eqn:Ecl; cbn [fst].
  { split; [done|]. intros. split; [by eexists | done]. }
  set (jobs := fun fresh => completion_order e (build_jobs (length (cl :: cls)) fresh)).
  pose proof (fun job res => elem_of_run_jobs e (jobs fresh) (set_cycle c w) w job res) as Hres.
  pose proof (run_jobs_spec e (jobs fresh) (set_cycle c w)) as (Hp & _).
  fold (jobs fresh).
  destruct (run_jobs e (jobs fresh) (set_cycle c w)) as [results w1]. cbn [fst snd] in Hres, Hp.
  destruct (gather results [] []) as [[all_users all_comments]|y] eqn:Eg; cbn [fst snd].
  - assert (∀ job, job ∈ jobs fresh → ∀ x, (fetch_user_job e job w).1 ≠ Raises x) as Hno.
    { intros job Hjob x Hx. apply (gather_returns_inv _ _ _ _ Eg job x).
      apply Hres. by split. }
    split.
    + split; [by eauto|]. destruct (collect_fresh_released _ _ _ _ _ _ Ec) as [Hlen Hall].
      done.
    + intros fresh' c' rest' job x [= <- <- <-] Hjob Hx. by destruct (Hno job Hjob x).
  - split; [done|]. intros fresh' c' rest' job x _ _ _. split; [by eexists|].
    by rewrite Hp.
Qed.

(** ** The label of the language model *)

Lemma replace_go_skip old new k s :
  replace_go old new k s = replace_go old new 0 (drop k s).
Proof.
  revert k. induction s as [|c r IH]; intros [|k]; try done.
  simpl. apply IH.
Qed.

Lemma replace_go_absent a old new s :
  a ∉ s → replace_go (a :: old) new 0 s = s.
Proof.
  induction s as [|c r IH]; [done|]. intros [Hc Hr]%not_elem_of_cons.
  cbn [replace_go startswith]. destruct (N.eqb_spec a c); [done|].
  cbn [andb]. by rewrite IH.
Qed.

Lemma replace_prefix a old s :
  replace (a :: old) [] ((a :: old) ++ s) = replace (a :: old) [] s.
Proof.
  unfold replace. change ((a :: old) ++ s) with (a :: (old ++ s)).
  cbn [replace_go]. change (a :: (old ++ s)) with ((a :: old) ++ s).
  rewrite startswith_app. cbn [app].
  replace (length (a :: old) - 1) with (length old) by (simpl; lia).
  rewrite replace_go_skip. by rewrite drop_app_length.
Qed.

(** X25. For a label of the model's form, ["__label__"] followed by a code
    without underscore, [detect_lang] answers that code, when the cleaned
    and lower-cased text is not empty and the first score is no less than
    the threshold. *)
Theorem detect_lang_iso (lower : str → str) (ft_predict : str → ft_result)
    (t iso : str) (ls : list str) (s0 : float) (ss : list float) :
  lower (clean_text t) ≠ [] →
  ft_predict (lower (clean_text t)) = FtPair ((lit "__label__" ++ iso) :: ls) (s0 :: ss) →
  PrimFloat.leb FT_THRESHOLD s0 = true →
  95%N ∉ iso →
  detect_lang lower ft_predict t = iso.
Proof.
  intros Hne Hft Hs Hiso. unfold detect_lang, detect_lang_with.
  destruct (lower (clean_text t)) as [|c r] eqn:El; [done|].
  rewrite Hft, Hs.
  change (lit "__label__") with (95%N :: tail (lit "__label__")).
  rewrite replace_prefix. unfold replace. by apply replace_go_absent.
Qed.

(** The witness of X25: the label ["__label__en"] with score 0.9. *)
Lemma detect_lang_iso_witness :
  detect_lang Sample.ascii_lower Sample.ft_en (lit "Hello") = lit "en".
Proof.
  apply (detect_lang_iso Sample.ascii_lower Sample.ft_en (lit "Hello") (lit "en")
           [] 0x1.ccccccccccccdp-1%float []).
  - discriminate.
  - reflexivity.
  - reflexivity.
  - by apply (bool_decide_unpack _).
Defined.

(** ** The definitions at work *)

Example detect_lang_ex :
  detect_lang Sample.ascii_lower Sample.ft_en (lit "Hello") = lit "en".
Proof. vm_compute. reflexivity. Qed.

Example process_ex :
  map (fun r => (body_clean r, language r, created_utc r,
                 match sentiment r with Some m => Some (m !! lit "positive") | None => None end))
      (process_user_comments Sample.ascii_lower Sample.ft_en Sample.three_scores
         (lit "bob") [Sample.comment1; Sample.comment2])
  = [(lit "I love this", lit "en", 8%Z, Some (Some 0x1.8p-1%float));
     ([], lit "unknown", 9%Z, None)].
Proof. vm_compute. reflexivity. Qed.
